(** * The audio capture-and-classify pipeline of cc1352/ei_main.cpp

    A shallow embedding of the read-completion handler [I2SreadCallback],
    the error callback [I2SerrCallback], the classifier adapter
    [raw_feature_get_data], the setup code and the treatment loop of
    [controlThread], and the wait of [ei_main], together with the queue
    utility they call.  The three transaction descriptors, the two queue
    headers, the two semaphores, the [features] pointer, the two GPIO
    registers and the console are the program's global state; they are
    gathered in the record [State] and threaded explicitly. *)

From Stdlib Require Import ZArith Bool Lia String Ascii Floats Uint63 List Permutation.
Import ListNotations.

Local Open Scope Z_scope.

(** ** Constants *)

Definition NUMBUFS : nat := 3.
Definition BUFSIZE : Z := 11200.
Definition FEATURE_LENGTH : Z := BUFSIZE / 2.

Definition GO_LABEL_INDEX : nat := 0.
Definition NOISE_LABEL_INDEX : nat := 1.
Definition STOP_LABEL_INDEX : nat := 2.

(** ** Addresses

    [buf1], [buf2], [buf3] are the three static sample buffers and
    [Txn1], [Txn2], [Txn3] the addresses [&i2sTransaction1],
    [&i2sTransaction2], [&i2sTransaction3].  A C pointer that may be
    [NULL] is an [option]. *)

Inductive BufPtr : Set := buf1 | buf2 | buf3.
Inductive TxnPtr : Set := Txn1 | Txn2 | Txn3.

Definition TxnPtr_eq_dec (a b : TxnPtr) : {a = b} + {a <> b}.
Proof. decide equality. Defined.

Definition i2sBufList : list BufPtr := [buf1; buf2; buf3].
Definition i2sTransactionList : list TxnPtr := [Txn1; Txn2; Txn3].

(** ** Data *)

Record List_Elem : Set := mkElem {
  next : option TxnPtr;
  prev : option TxnPtr
}.

Record List_List : Set := mkList {
  head : option TxnPtr;
  tail : option TxnPtr
}.

(** Of the descriptor only the fields the program reads or writes are kept;
    the transfer counters belong to the driver. *)
Record I2S_Transaction : Set := mkTxn {
  queueElement : List_Elem;
  bufPtr : option BufPtr;
  bufSize : Z
}.

Record Descriptors : Set := mkDescriptors {
  i2sTransaction1 : I2S_Transaction;
  i2sTransaction2 : I2S_Transaction;
  i2sTransaction3 : I2S_Transaction
}.

Definition deref (m : Descriptors) (p : TxnPtr) : I2S_Transaction :=
  match p with
  | Txn1 => i2sTransaction1 m
  | Txn2 => i2sTransaction2 m
  | Txn3 => i2sTransaction3 m
  end.

Definition store (m : Descriptors) (p : TxnPtr) (v : I2S_Transaction) : Descriptors :=
  match p with
  | Txn1 => mkDescriptors v (i2sTransaction2 m) (i2sTransaction3 m)
  | Txn2 => mkDescriptors (i2sTransaction1 m) v (i2sTransaction3 m)
  | Txn3 => mkDescriptors (i2sTransaction1 m) (i2sTransaction2 m) v
  end.

Definition links (m : Descriptors) (p : TxnPtr) : List_Elem :=
  queueElement (deref m p).

Definition set_next (m : Descriptors) (p : TxnPtr) (v : option TxnPtr) : Descriptors :=
  let d := deref m p in
  store m p (mkTxn (mkElem v (prev (queueElement d))) (bufPtr d) (bufSize d)).

Definition set_prev (m : Descriptors) (p : TxnPtr) (v : option TxnPtr) : Descriptors :=
  let d := deref m p in
  store m p (mkTxn (mkElem (next (queueElement d)) v) (bufPtr d) (bufSize d)).

Definition set_bufPtr (m : Descriptors) (p : TxnPtr) (v : option BufPtr) : Descriptors :=
  let d := deref m p in
  store m p (mkTxn (queueElement d) v (bufSize d)).

Definition set_bufSize (m : Descriptors) (p : TxnPtr) (v : Z) : Descriptors :=
  let d := deref m p in
  store m p (mkTxn (queueElement d) (bufPtr d) v).

(** The classifier's verdict: one confidence per label, indexed by the
    label constants.  The C [float] values are carried as binary64
    numbers, which hold every binary32 value exactly; the comparison with
    the [double] literal 0.50 is then the one the C code performs after
    the usual promotion. *)
Record ei_impulse_result_t : Set := mkResult {
  classification : list float
}.

(** What one call of [run_classifier] hands back: its status and the
    result structure it filled in. *)
Record classifier_run : Set := mkRun {
  res : Z;
  result : ei_impulse_result_t
}.

Record State : Set := mkState {
  txns : Descriptors;
  i2sReadList : List_List;
  treatmentList : List_List;
  semDataReadyForTreatment : nat;
  semErrorCallback : nat;
  features : option BufPtr;
  DOE : Z;
  DOUT_Control : Z;
  console : list string
}.

(** [&i2sReadList] and [&treatmentList]. *)
Inductive ListRef : Set := ref_i2sReadList | ref_treatmentList.

Definition get_list (r : ListRef) (s : State) : List_List :=
  match r with
  | ref_i2sReadList => i2sReadList s
  | ref_treatmentList => treatmentList s
  end.

Definition set_list (r : ListRef) (l : List_List) (s : State) : State :=
  match r with
  | ref_i2sReadList =>
      mkState (txns s) l (treatmentList s) (semDataReadyForTreatment s)
        (semErrorCallback s) (features s) (DOE s) (DOUT_Control s) (console s)
  | ref_treatmentList =>
      mkState (txns s) (i2sReadList s) l (semDataReadyForTreatment s)
        (semErrorCallback s) (features s) (DOE s) (DOUT_Control s) (console s)
  end.

Definition set_txns (m : Descriptors) (s : State) : State :=
  mkState m (i2sReadList s) (treatmentList s) (semDataReadyForTreatment s)
    (semErrorCallback s) (features s) (DOE s) (DOUT_Control s) (console s).

Definition set_semDataReadyForTreatment (n : nat) (s : State) : State :=
  mkState (txns s) (i2sReadList s) (treatmentList s) n
    (semErrorCallback s) (features s) (DOE s) (DOUT_Control s) (console s).

Definition set_semErrorCallback (n : nat) (s : State) : State :=
  mkState (txns s) (i2sReadList s) (treatmentList s) (semDataReadyForTreatment s)
    n (features s) (DOE s) (DOUT_Control s) (console s).

Definition set_features (p : option BufPtr) (s : State) : State :=
  mkState (txns s) (i2sReadList s) (treatmentList s) (semDataReadyForTreatment s)
    (semErrorCallback s) p (DOE s) (DOUT_Control s) (console s).

Definition set_DOE (v : Z) (s : State) : State :=
  mkState (txns s) (i2sReadList s) (treatmentList s) (semDataReadyForTreatment s)
    (semErrorCallback s) (features s) v (DOUT_Control s) (console s).

Definition set_DOUT_Control (v : Z) (s : State) : State :=
  mkState (txns s) (i2sReadList s) (treatmentList s) (semDataReadyForTreatment s)
    (semErrorCallback s) (features s) (DOE s) v (console s).

Definition CRLF : string := String "013"%char (String "010"%char EmptyString).

Definition ei_printf (msg : string) (s : State) : State :=
  mkState (txns s) (i2sReadList s) (treatmentList s) (semDataReadyForTreatment s)
    (semErrorCallback s) (features s) (DOE s) (DOUT_Control s) (console s ++ [msg]).

(** ** The queue utility

    The queue utility of the driver library ([List_clearList], [List_put],
    [List_remove], [List_head], [List_prev]) is called by the sources but
    is not among them.  The spec describes it as a FIFO of descriptors with
    a head lookup that does not remove, an O(1) append at the tail, an O(1)
    removal of a given descriptor and a predecessor lookup; that is an
    intrusive doubly-linked list: each descriptor carries its own [next]
    and [prev] in [queueElement], and a queue header holds [head] and
    [tail].  Each operation runs with interrupts disabled, so it is one
    atomic step.  The [_core] functions work on the descriptors and one
    header; the functions with the library's names apply them to the
    header a [ListRef] names. *)

(** Modelled from the spec: [List_put], the append at the tail.  The
    element's links are overwritten, the old tail (if any) is linked to it,
    and it becomes the tail, and the head too when the queue was empty.
    Whether the element already sits in some queue is not checked. *)
Definition List_put_core (m : Descriptors) (list : List_List) (elem : TxnPtr)
  : Descriptors * List_List :=
  let m := set_next m elem None in
  let m := set_prev m elem (tail list) in
  let m := match tail list with
           | Some t => set_next m t (Some elem)
           | None => m
           end in
  let list := mkList (head list) (Some elem) in
  let list := match head list with
              | None => mkList (Some elem) (tail list)
              | Some _ => list
              end in
  (m, list).

(** Modelled from the spec: [List_remove], the removal of a given
    element.  Its successor (or the header's [tail]) takes over its [prev],
    its predecessor (or the header's [head]) takes over its [next]; its own
    links are left as they are.  Whether the element is a member of the
    queue is not checked. *)
Definition List_remove_core (m : Descriptors) (list : List_List) (elem : TxnPtr)
  : Descriptors * List_List :=
  let '(m, list) :=
    match next (links m elem) with
    | None => (m, mkList (head list) (prev (links m elem)))
    | Some n => (set_prev m n (prev (links m elem)), list)
    end in
  match prev (links m elem) with
  | None => (m, mkList (next (links m elem)) (tail list))
  | Some p => (set_next m p (next (links m elem)), list)
  end.

(** Modelled from the spec: [List_clearList] empties a queue. *)
Definition List_clearList (r : ListRef) (s : State) : State :=
  set_list r (mkList None None) s.

(** Modelled from the spec: [List_head], the head without removing it. *)
Definition List_head (r : ListRef) (s : State) : option TxnPtr :=
  head (get_list r s).

(** Modelled from the spec: [List_prev], the predecessor lookup: what the
    element's own [prev] holds. *)
Definition List_prev (elem : TxnPtr) (s : State) : option TxnPtr :=
  prev (links (txns s) elem).

Definition List_put (r : ListRef) (elem : TxnPtr) (s : State) : State :=
  let '(m, l) := List_put_core (txns s) (get_list r s) elem in
  set_list r l (set_txns m s).

Definition List_remove (r : ListRef) (elem : TxnPtr) (s : State) : State :=
  let '(m, l) := List_remove_core (txns s) (get_list r s) elem in
  set_list r l (set_txns m s).

(** Modelled from the spec: [I2S_Transaction_init] belongs to the driver
    library; it resets a descriptor to the default transaction (no buffer,
    size zero, unlinked). *)
Definition I2S_Transaction_init (p : TxnPtr) (s : State) : State :=
  set_txns (store (txns s) p (mkTxn (mkElem None None) None 0)) s.

(** The elements of a queue, read by following [next] from the header's
    [head].  A queue never holds more than the [NUMBUFS] descriptors, which
    bounds the walk. *)
Fixpoint walk (fuel : nat) (m : Descriptors) (p : option TxnPtr) : list TxnPtr :=
  match fuel, p with
  | S f, Some x => x :: walk f m (next (links m x))
  | _, _ => []
  end.

Definition queue (r : ListRef) (s : State) : list TxnPtr :=
  walk NUMBUFS (txns s) (head (get_list r s)).

Definition capture_queue (s : State) : list TxnPtr := queue ref_i2sReadList s.
Definition treatment_queue (s : State) : list TxnPtr := queue ref_treatmentList s.

(** ** Counting semaphores

    [sem_post] adds one to the count.  [sem_wait] takes one when the count
    is positive and otherwise blocks: [None] says the caller cannot
    proceed. *)

Inductive SemRef : Set := ref_semDataReadyForTreatment | ref_semErrorCallback.

Definition sem_value (r : SemRef) (s : State) : nat :=
  match r with
  | ref_semDataReadyForTreatment => semDataReadyForTreatment s
  | ref_semErrorCallback => semErrorCallback s
  end.

Definition sem_init (r : SemRef) (value : nat) (s : State) : State :=
  match r with
  | ref_semDataReadyForTreatment => set_semDataReadyForTreatment value s
  | ref_semErrorCallback => set_semErrorCallback value s
  end.

Definition sem_post (r : SemRef) (s : State) : State :=
  sem_init r (S (sem_value r s)) s.

Definition sem_wait (r : SemRef) (s : State) : option State :=
  match sem_value r s with
  | O => None
  | S n => Some (sem_init r n s)
  end.

(** ** The GPIO registers

    [DOE] and [DOUT_Control] are 32-bit registers, one bit per DIO line;
    [v |= mask] and [v &= ~mask] on them. *)

Definition u32 (z : Z) : Z := z mod 2 ^ 32.

Definition reg_set (v mask : Z) : Z := u32 (Z.lor v mask).
Definition reg_clear (v mask : Z) : Z := u32 (Z.land v (Z.lnot mask)).

Definition DIO (n : Z) (reg : Z) : bool := Z.testbit reg n.

(** The pair of output lines the robot reads: DIO7 and DIO6. *)
Definition lines (s : State) : bool * bool :=
  (DIO 7 (DOUT_Control s), DIO 6 (DOUT_Control s)).

(** ** The callbacks *)

(** The body of [I2SerrCallback] is a single commented-out [sem_post]. *)
Definition I2SerrCallback (s : State) : State := s.

Definition I2SwriteCallback (s : State) : State := s.

Definition I2SreadCallback (transactionPtr : TxnPtr) (s : State) : State :=
  match List_prev transactionPtr s with
  | Some transactionFinished =>
      let s := List_remove ref_i2sReadList transactionFinished s in
      let s := List_put ref_treatmentList transactionFinished s in
      sem_post ref_semDataReadyForTreatment s
  | None => s
  end.

(** ** Setup *)

Definition I2S_setup_body (s : State) (k : nat) : State :=
  let t := nth k i2sTransactionList Txn1 in
  let s := I2S_Transaction_init t s in
  let s := set_txns (set_bufPtr (txns s) t (Some (nth k i2sBufList buf1))) s in
  let s := set_txns (set_bufSize (txns s) t BUFSIZE) s in
  List_put ref_i2sReadList t s.

(** The part of [I2S_setup] that touches the program's own state: both
    queues cleared, then the [for] loop over [k = 0 .. NUMBUFS-1].  Opening
    the driver and starting the clocks and the read stream are the
    driver's; where they fail the code spins in [while(1);] and never
    reaches the loop. *)
Definition I2S_setup (s : State) : State :=
  let s := List_clearList ref_i2sReadList s in
  let s := List_clearList ref_treatmentList s in
  fold_left I2S_setup_body (seq 0 NUMBUFS) s.

(** [controlThread] up to the head of its loop: [I2S_setup], the
    [sem_init] of the worker's semaphore, and the three writes to the GPIO
    registers.  ([AudioCodec_setup] only talks to the codec.) *)
Definition controlThread_setup (s : State) : State :=
  let s := I2S_setup s in
  let s := sem_init ref_semDataReadyForTreatment 0 s in
  let s := set_DOE (reg_set (DOE s) (Z.lor (Z.shiftl 1 7) (Z.shiftl 1 6))) s in
  let s := set_DOUT_Control (reg_set (DOUT_Control s) (Z.shiftl 1 6)) s in
  set_DOUT_Control (reg_clear (DOUT_Control s) (Z.shiftl 1 7)) s.

(** [ei_main] initialises [semErrorCallback] and then waits on it.  It
    does so after it has created the worker thread; the two initialisations
    touch different fields, so their order does not show. *)
Definition ei_main_init (s : State) : State :=
  sem_init ref_semErrorCallback 0 s.

(** [None]: [ei_main] is still blocked in its [sem_wait]; [Some]: it has
    been released and goes on to cancel the worker and close the driver. *)
Definition ei_main_wait (s : State) : option State :=
  sem_wait ref_semErrorCallback s.

(** ** The treatment loop of [controlThread] *)

Definition classification_value (r : ei_impulse_result_t) (ix : nat) : float :=
  nth ix (classification r) 0%float.

(** The [if / else if / else] on the classification result. *)
Definition drive_outputs (r : ei_impulse_result_t) (s : State) : State :=
  if (0.5 <? classification_value r GO_LABEL_INDEX)%float then
    let s := ei_printf ("GO" ++ CRLF) s in
    let s := set_DOUT_Control (reg_set (DOUT_Control s) (Z.shiftl 1 7)) s in
    set_DOUT_Control (reg_clear (DOUT_Control s) (Z.shiftl 1 6)) s
  else if (0.5 <? classification_value r STOP_LABEL_INDEX)%float then
    let s := ei_printf ("STOP" ++ CRLF) s in
    let s := set_DOUT_Control (reg_clear (DOUT_Control s) (Z.shiftl 1 7)) s in
    set_DOUT_Control (reg_set (DOUT_Control s) (Z.shiftl 1 6)) s
  else
    ei_printf ("NOISE" ++ CRLF) s.

(** Where the worker stands: blocked in or about to call [sem_wait];
    holding the head of the treatment queue, not yet removed; between
    [List_remove] and [List_put]; returned from [controlThread]; or in one
    of its [while(1);] dead ends. *)
Inductive WorkerPc : Set :=
| AtWait
| Treating (t : TxnPtr)
| Returning (t : TxnPtr)
| Exited (ret : Z)
| Hung.

(** [sem_wait] returned 0, then [List_head]. *)
Definition worker_wake (s : State) : option (State * WorkerPc) :=
  match sem_wait ref_semDataReadyForTreatment s with
  | None => None
  | Some s =>
      match List_head ref_treatmentList s with
      | Some transactionToTreat => Some (s, Treating transactionToTreat)
      | None => Some (s, AtWait)
      end
  end.

(** [sem_wait] returned -1. *)
Definition worker_wait_failed (s : State) : State * WorkerPc :=
  (ei_printf ("retc fail." ++ CRLF) s, Hung).

(** From the binding of [features] to [List_remove], with [run] what
    [run_classifier] handed back.  The outputs are driven before the status
    is tested.  (The comparison of [FEATURE_LENGTH] with the classifier's
    frame size is done by the preprocessor.) *)
Definition worker_treat (transactionToTreat : TxnPtr) (run : classifier_run)
  (s : State) : State * WorkerPc :=
  let s := set_features (bufPtr (deref (txns s) transactionToTreat)) s in
  let s := drive_outputs (result run) s in
  if negb (res run =? 0) then
    (ei_printf ("run_classifier fail." ++ CRLF) s, Exited 1)
  else
    (List_remove ref_treatmentList transactionToTreat s, Returning transactionToTreat).

Definition worker_return (transactionToTreat : TxnPtr) (s : State) : State * WorkerPc :=
  (List_put ref_i2sReadList transactionToTreat s, AtWait).

(** One pass through the body of [while(1)] with no interrupt in between.
    [None]: the worker is blocked in [sem_wait]. *)
Definition controlThread_iteration (run : classifier_run) (s : State)
  : option (State * WorkerPc) :=
  match worker_wake s with
  | None => None
  | Some (s, Treating t) =>
      match worker_treat t run s with
      | (s, Returning t) => Some (worker_return t s)
      | stopped => Some stopped
      end
  | Some other => Some other
  end.

(** The worker running alone: one iteration per element of [runs], the
    classifier outcome that iteration meets (an iteration that finds the
    treatment queue empty calls no classifier and lets its element go).
    The result lists the descriptors treated, in order, with the state and
    the place the worker is left in. *)
Fixpoint controlThread_loop (runs : list classifier_run) (s : State)
  : list TxnPtr * (State * WorkerPc) :=
  match runs with
  | [] => ([], (s, AtWait))
  | run :: runs' =>
      match worker_wake s with
      | None => ([], (s, AtWait))
      | Some (s1, Treating t) =>
          match worker_treat t run s1 with
          | (s2, Returning t') =>
              let '(treated, final) := controlThread_loop runs' (fst (worker_return t' s2)) in
              (t :: treated, final)
          | stopped => ([t], stopped)
          end
      | Some (s1, AtWait) => controlThread_loop runs' s1
      | Some other => ([], other)
      end
  end.

(** ** The system: handler and worker interleaved

    The handler runs in interrupt context and may fire wherever the worker
    stands; the driver hands it the descriptor that has just become the
    active capture target, which is a member of the capture queue.  The
    error callback may fire at any time as well. *)

Definition Sys : Set := (State * WorkerPc)%type.

Inductive step : Sys -> Sys -> Prop :=
| step_read : forall s pc t,
    In t (capture_queue s) ->
    step (s, pc) (I2SreadCallback t s, pc)
| step_error : forall s pc,
    step (s, pc) (I2SerrCallback s, pc)
| step_wake : forall s sys',
    worker_wake s = Some sys' ->
    step (s, AtWait) sys'
| step_wait_failed : forall s,
    step (s, AtWait) (worker_wait_failed s)
| step_treat : forall s t run,
    step (s, Treating t) (worker_treat t run s)
| step_return : forall s t,
    step (s, Returning t) (worker_return t s).

(** The state in which the worker reaches its loop, from whatever the
    memory held at boot.  The first capture period lasts for a whole
    buffer of samples, so no completion arrives before this point. *)
Definition initial (boot : State) : Sys :=
  (controlThread_setup (ei_main_init boot), AtWait).

Inductive reachable : Sys -> Prop :=
| reach_initial : forall boot, reachable (initial boot)
| reach_step : forall sys sys', reachable sys -> step sys sys' -> reachable sys'.

(** The worker's own moves, for saying that it has stopped. *)
Inductive worker_step : Sys -> Sys -> Prop :=
| wstep_wake : forall s sys', worker_wake s = Some sys' -> worker_step (s, AtWait) sys'
| wstep_wait_failed : forall s, worker_step (s, AtWait) (worker_wait_failed s)
| wstep_treat : forall s t run, worker_step (s, Treating t) (worker_treat t run s)
| wstep_return : forall s t, worker_step (s, Returning t) (worker_return t s).

(** ** The classifier adapter *)

(** The value of a C integer as a floating-point number. *)
Definition float_of_Z (x : Z) : float :=
  if x <? 0 then (- PrimFloat.of_uint63 (Uint63.of_Z (- x)))%float
  else PrimFloat.of_uint63 (Uint63.of_Z x).

(** Modelled from the spec: the conversion of one 16-bit fixed-point
    sample to floating point, [x] becoming [x / 32768].  The quotient is
    exact in binary32, so the binary64 value carried here is the value the
    C [float] holds. *)
Definition q15_to_float (x : Z) : float := (float_of_Z x / 32768)%float.

(** Modelled from the spec: [arm_q15_to_float] comes from the DSP library
    and is not among the sources.  It converts [blockSize] samples and
    writes them to the start of the destination.  A source or a
    destination that is too short is an out-of-bounds access: [None]. *)
Fixpoint arm_q15_to_float (pSrc : list Z) (pDst : list float) (blockSize : nat)
  {struct blockSize} : option (list float) :=
  match blockSize with
  | O => Some pDst
  | S n =>
      match pSrc, pDst with
      | x :: pSrc', _ :: pDst' =>
          match arm_q15_to_float pSrc' pDst' n with
          | Some out => Some (q15_to_float x :: out)
          | None => None
          end
      | _, _ => None
      end
  end.

(** The buffers as the classifier sees them through [features]: arrays of
    16-bit samples. *)
Definition Samples : Set := BufPtr -> list Z.

(** [raw_feature_get_data]: the samples come from [features + offset], the
    destination is the memory at [out_ptr].  Returns the status, the
    destination after the call and the program state after the call. *)
Definition raw_feature_get_data (mem : Samples) (offset length : nat)
  (out_ptr : list float) (s : State) : option (Z * list float * State) :=
  match features s with
  | None => None
  | Some b =>
      match arm_q15_to_float (skipn offset (mem b)) out_ptr length with
      | Some out => Some (0, out, s)
      | None => None
      end
  end.

(** ** What a well-formed queue is

    [dseg m pp p q qn l]: in memory [m] the descriptors of [l] are chained
    through [next] and [prev]; [p] is the first and [q] the last of them,
    [pp] is what the first one's [prev] holds and [qn] what the last one's
    [next] holds.  For the empty segment the two ends meet. *)

Fixpoint dseg (m : Descriptors) (pp p q qn : option TxnPtr) (l : list TxnPtr) : Prop :=
  match l with
  | [] => p = qn /\ pp = q
  | x :: r =>
      p = Some x /\ prev (links m x) = pp /\
      dseg m (Some x) (next (links m x)) q qn r
  end.

(** The header [L] and the links in [m] represent the queue [l]. *)
Definition repr (m : Descriptors) (L : List_List) (l : list TxnPtr) : Prop :=
  dseg m None (head L) (tail L) None l /\ NoDup l.

(** The descriptor the worker has taken out of the treatment queue and not
    yet put back. *)
Definition in_flight (pc : WorkerPc) : list TxnPtr :=
  match pc with
  | Returning t => [t]
  | _ => []
  end.

(** One when the worker has consumed a signal whose descriptor is still at
    the head of the treatment queue. *)
Definition busy (pc : WorkerPc) : nat :=
  match pc with
  | Treating _ | Exited _ => 1
  | _ => 0
  end.

(** The buffer [I2S_setup] gives each descriptor: [i2sBufList[k]] for
    [i2sTransactionList[k]]. *)
Definition i2sBuf_of (t : TxnPtr) : BufPtr :=
  match t with
  | Txn1 => buf1
  | Txn2 => buf2
  | Txn3 => buf3
  end.

(** What every reachable state satisfies: both queues are well formed;
    together with the descriptor in flight they hold each of the three
    descriptors once; the capture queue is not empty; the semaphore counts
    the descriptors of the treatment queue no wake has been spent on; the
    descriptor being treated is the head of the treatment queue; nothing
    has posted [semErrorCallback]; each descriptor names the buffer and the
    size [I2S_setup] gave it. *)
Definition Inv (sys : Sys) : Prop :=
  exists c q,
    repr (txns (fst sys)) (i2sReadList (fst sys)) c /\
    repr (txns (fst sys)) (treatmentList (fst sys)) q /\
    Permutation (c ++ q ++ in_flight (snd sys)) i2sTransactionList /\
    c <> [] /\
    length q = (semDataReadyForTreatment (fst sys) + busy (snd sys))%nat /\
    (forall t, snd sys = Treating t -> hd_error q = Some t) /\
    semErrorCallback (fst sys) = 0%nat /\
    (forall t, bufPtr (deref (txns (fst sys)) t) = Some (i2sBuf_of t) /\
               bufSize (deref (txns (fst sys)) t) = BUFSIZE).

(** The first half of [List_remove]: the successor's [prev], or the
    header's [tail]. *)
Definition unlink_next (m : Descriptors) (list : List_List) (elem : TxnPtr)
  : Descriptors * List_List :=
  match next (links m elem) with
  | None => (m, mkList (head list) (prev (links m elem)))
  | Some n => (set_prev m n (prev (links m elem)), list)
  end.

(** The state after the classification and the actuation, before the test
    of the status. *)
Definition classified (t : TxnPtr) (run : classifier_run) (s : State) : State :=
  drive_outputs (result run) (set_features (bufPtr (deref (txns s) t)) s).

(** ** The actuation states of the spec

    The decision as the spec words it: GO when the GO confidence exceeds
    0.50, else STOP when the STOP confidence exceeds 0.50, else NOISE.  It
    is compared with [drive_outputs] below. *)

Inductive Actuation : Set := GO | STOP | NOISE.

Definition select_actuation (r : ei_impulse_result_t) : Actuation :=
  if (0.5 <? classification_value r GO_LABEL_INDEX)%float then GO
  else if (0.5 <? classification_value r STOP_LABEL_INDEX)%float then STOP
  else NOISE.

Definition actuation_label (a : Actuation) : string :=
  match a with
  | GO => "GO" ++ CRLF
  | STOP => "STOP" ++ CRLF
  | NOISE => "NOISE" ++ CRLF
  end.

(** ** A concrete run, for instances of the theorems

    A boot memory with arbitrary contents, and the first moments of the
    pipeline from it: the worker reaches its loop ([st_initial]); the first
    capture period ends and [Txn2] becomes the active target
    ([st_first_completion]); the worker wakes and starts on the first
    buffer ([st_busy]); the second capture period ends while the worker is
    still busy ([st_busy_second_completion]); the worker has classified the
    first buffer and taken it out of the treatment queue
    ([st_returning]). *)

Definition boot_example : State :=
  mkState
    (mkDescriptors (mkTxn (mkElem (Some Txn2) (Some Txn3)) None 7)
                   (mkTxn (mkElem (Some Txn2) (Some Txn3)) None 7)
                   (mkTxn (mkElem (Some Txn2) (Some Txn3)) None 7))
    (mkList (Some Txn1) None) (mkList None (Some Txn2))
    5 4 None 0 255 [].

Definition ok_run : classifier_run := mkRun 0 (mkResult [0.75; 0.125; 0.125]%float).
Definition failed_run : classifier_run := mkRun (-3) (mkResult [0; 0; 0]%float).

Definition st_initial : State := controlThread_setup (ei_main_init boot_example).

Definition st_first_completion : State := I2SreadCallback Txn2 st_initial.

Definition st_busy : State :=
  sem_init ref_semDataReadyForTreatment 0 st_first_completion.

Definition st_busy_second_completion : State := I2SreadCallback Txn3 st_busy.

Definition st_returning : State :=
  List_remove ref_treatmentList Txn1 (classified Txn1 ok_run st_busy_second_completion).

(** A state in which a signal is pending although the treatment queue is
    empty. *)
Definition st_spurious : State :=
  sem_post ref_semDataReadyForTreatment st_initial.

(** Sample contents for an instance of the adapter's contract. *)
Definition samples_example : Samples :=
  fun b => match b with
           | buf1 => [0; 0; 0; 0]
           | buf2 => [32767; 16384; -32768; 8192]
           | buf3 => [1; 2; 3; 4]
           end.

(** ** Runs from a given boot memory *)

(** Any number of moves of the system. *)
Inductive steps : Sys -> Sys -> Prop :=
| steps_refl : forall sys, steps sys sys
| steps_step : forall sys sys' sys'', steps sys sys' -> step sys' sys'' -> steps sys sys''.

(** One capture period ends with [t] the new active target, and the worker
    then makes one pass through its loop before anything else happens. *)
Definition completion_then_cycle (t : TxnPtr) (run : classifier_run) (s : State) : State :=
  match controlThread_iteration run (I2SreadCallback t s) with
  | Some (s', _) => s'
  | None => I2SreadCallback t s
  end.

(** The concrete run as states of the system. *)
Definition sys_busy_second_completion : Sys := (st_busy_second_completion, Treating Txn1).
Definition sys_returning : Sys := (st_returning, Returning Txn1).

(** The worker has treated the first buffer before the second capture
    period has ended. *)
Definition st_after_first_treat : State :=
  List_remove ref_treatmentList Txn1 (classified Txn1 ok_run st_busy).

(** ** The start of [controlThread], with the calls that can fail

    What the library calls before the loop hand back: whether
    [AudioCodec_open] and [AudioCodec_config] reported success, whether
    [I2S_open] returned a handle, and the value [sem_init] returned. *)

Record setup_results : Set := mkSetup {
  AudioCodec_open_ok : bool;
  AudioCodec_config_ok : bool;
  I2S_open_ok : bool;
  sem_init_retc : Z
}.

(** [AudioCodec_setup]: [true] when it returns, [false] when it spins in
    one of its two [while(1);]. *)
Definition AudioCodec_setup (env : setup_results) : bool :=
  if negb (AudioCodec_open_ok env) then false
  else if negb (AudioCodec_config_ok env) then false
  else true.

(** [I2S_setup] with its test of the handle: [None] when it spins, before
    it has touched the queues. *)
Definition I2S_setup_checked (env : setup_results) (s : State) : option State :=
  if negb (I2S_open_ok env) then None else Some (I2S_setup s).

(** [controlThread] from its first line to the head of the loop, or to the
    [while(1);] it is caught in. *)
Definition controlThread_start (env : setup_results) (s : State) : State * WorkerPc :=
  if AudioCodec_setup env then
    match I2S_setup_checked env s with
    | None => (s, Hung)
    | Some s =>
        if sem_init_retc env =? -1 then (s, Hung)
        else
          let s := sem_init ref_semDataReadyForTreatment 0 s in
          let s := set_DOE (reg_set (DOE s) (Z.lor (Z.shiftl 1 7) (Z.shiftl 1 6))) s in
          let s := set_DOUT_Control (reg_set (DOUT_Control s) (Z.shiftl 1 6)) s in
          (set_DOUT_Control (reg_clear (DOUT_Control s) (Z.shiftl 1 7)) s, AtWait)
    end
  else (s, Hung).

Definition setup_succeeds (env : setup_results) : bool :=
  AudioCodec_open_ok env && AudioCodec_config_ok env && I2S_open_ok env
  && negb (sem_init_retc env =? -1).

(** ** Runs with their history

    The moves of the system as data, so that a run can be replayed and
    what happened along it recorded: which descriptors the handler handed
    to the worker, which the classifier was run on, and which the worker
    took out of the treatment queue, each in order. *)

Inductive Move : Set :=
| do_read (t : TxnPtr)
| do_error
| do_wake
| do_wait_failed
| do_treat (run : classifier_run)
| do_return.

(** The move made in a state, when the state allows it: the cases of
    [step]. *)
Definition exec (mv : Move) (sys : Sys) : option Sys :=
  match mv, sys with
  | do_read t, (s, pc) =>
      if in_dec TxnPtr_eq_dec t (capture_queue s)
      then Some (I2SreadCallback t s, pc) else None
  | do_error, (s, pc) => Some (I2SerrCallback s, pc)
  | do_wake, (s, AtWait) => worker_wake s
  | do_wait_failed, (s, AtWait) => Some (worker_wait_failed s)
  | do_treat run, (s, Treating t) => Some (worker_treat t run s)
  | do_return, (s, Returning t) => Some (worker_return t s)
  | _, _ => None
  end.

Record History : Set := mkHistory {
  completed : list TxnPtr;
  classified_on : list TxnPtr;
  removed : list TxnPtr
}.

Definition no_history : History := mkHistory [] [] [].

(** What a move adds to the history: the handler's [transactionFinished],
    when there is one; the descriptor the classifier is run on; and, when
    the status is 0, the descriptor taken out of the treatment queue. *)
Definition record (mv : Move) (sys : Sys) (h : History) : History :=
  match mv, sys with
  | do_read t, (s, _) =>
      match List_prev t s with
      | Some p => mkHistory (completed h ++ [p]) (classified_on h) (removed h)
      | None => h
      end
  | do_treat run, (_, Treating t) =>
      if res run =? 0
      then mkHistory (completed h) (classified_on h ++ [t]) (removed h ++ [t])
      else mkHistory (completed h) (classified_on h ++ [t]) (removed h)
  | _, _ => h
  end.

(** A move that the state does not allow does not take place. *)
Definition move (st : Sys * History) (mv : Move) : Sys * History :=
  match exec mv (fst st) with
  | Some sys' => (sys', record mv (fst st) (snd st))
  | None => st
  end.

Definition run_moves (mvs : list Move) (st : Sys * History) : Sys * History :=
  fold_left move mvs st.

(** What holds of a state and its history along every run. *)
Definition history_ok (st : Sys * History) : Prop :=
  Inv (fst st) /\
  completed (snd st) = removed (snd st) ++ treatment_queue (fst (fst st)) /\
  (classified_on (snd st) = removed (snd st) \/
   exists t v, snd (fst st) = Exited v /\
               classified_on (snd st) = removed (snd st) ++ [t] /\
               hd_error (treatment_queue (fst (fst st))) = Some t).

Definition moves_example : list Move :=
  [do_read Txn2; do_wake; do_read Txn3; do_treat ok_run; do_return; do_read Txn1;
   do_wake; do_treat failed_run; do_return; do_wake].

(** * The robot's control loop, rslk/main.c

    The loop of [main], [initGPIOComms] and the heartbeat interrupt
    [T32_INT1_IRQHandler].  The motor, GPIO and timer routines they call
    belong to libraries; a call is recorded as it is made, with its
    arguments, in the order of the program. *)

Inductive Port : Set := GPIO_PORT_P1 | GPIO_PORT_P2.
Inductive Pin : Set := GPIO_PIN0 | GPIO_PIN1 | GPIO_PIN2 | GPIO_PIN4 | GPIO_PIN5.

Definition RED_LED : Pin := GPIO_PIN0.
Definition GREEN_LED : Pin := GPIO_PIN1.
Definition BLUE_LED : Pin := GPIO_PIN2.

Inductive Motor : Set := LEFT_MOTOR | RIGHT_MOTOR.

Definition MOTOR_GO_SPEED : Z := 20.

Definition TRANSMISSION_VALID_PORT : Port := GPIO_PORT_P2.
Definition TRANSMISSION_VALID_PIN : Pin := GPIO_PIN4.
Definition MOTION_CONTROL_PORT : Port := GPIO_PORT_P2.
Definition MOTION_CONTROL_PIN : Pin := GPIO_PIN5.

(** A set of pins of one port, as the [|] of pin masks. *)
Definition Pins : Set := list Pin.

Inductive Call : Set :=
| setMotorDutyCycle (motor : Motor) (duty : Z)
| startMotor (motor : Motor)
| pauseMotor (motor : Motor)
| GPIO_setAsInputPin (port : Port) (pins : Pins)
| GPIO_setAsOutputPin (port : Port) (pins : Pins)
| GPIO_setOutputLowOnPin (port : Port) (pins : Pins)
| GPIO_setOutputHighOnPin (port : Port) (pins : Pins)
| Timer32_clearInterruptFlag.

Record Robot : Set := mkRobot {
  currentLED : Pin;
  calls : list Call
}.

Definition call (c : Call) (r : Robot) : Robot :=
  mkRobot (currentLED r) (calls r ++ [c]).

Definition set_currentLED (p : Pin) (r : Robot) : Robot :=
  mkRobot p (calls r).

(** What one pass of the loop reads: the two input lines, and what
    [bumpStateSet] and [checkBumpState] return. *)
Record Readings : Set := mkReadings {
  transmission_valid : Z;
  motion_control : Z;
  bumpStateSet : bool;
  checkBumpState : Z
}.

Definition initGPIOComms (r : Robot) : Robot :=
  let r := call (GPIO_setAsInputPin TRANSMISSION_VALID_PORT [TRANSMISSION_VALID_PIN]) r in
  let r := call (GPIO_setAsInputPin MOTION_CONTROL_PORT [MOTION_CONTROL_PIN]) r in
  let r := call (GPIO_setAsOutputPin GPIO_PORT_P1 [GPIO_PIN0]) r in
  call (GPIO_setOutputLowOnPin GPIO_PORT_P1 [GPIO_PIN0]) r.

(** The body of [while(1)] in [main]. *)
Definition main_loop_body (inp : Readings) (r : Robot) : Robot :=
  let r :=
    if transmission_valid inp =? 1 then
      if motion_control inp =? 1 then
        let r := call (setMotorDutyCycle LEFT_MOTOR 0) r in
        let r := call (setMotorDutyCycle RIGHT_MOTOR 0) r in
        let r := set_currentLED RED_LED r in
        call (GPIO_setOutputLowOnPin GPIO_PORT_P1 [GPIO_PIN0]) r
      else
        let r := call (setMotorDutyCycle LEFT_MOTOR MOTOR_GO_SPEED) r in
        let r := call (setMotorDutyCycle RIGHT_MOTOR MOTOR_GO_SPEED) r in
        let r := set_currentLED GREEN_LED r in
        call (GPIO_setOutputHighOnPin GPIO_PORT_P1 [GPIO_PIN0]) r
    else
      set_currentLED BLUE_LED r in
  if bumpStateSet inp then
    if checkBumpState inp =? 0 then
      let r := call (startMotor LEFT_MOTOR) r in
      call (startMotor RIGHT_MOTOR) r
    else
      let r := call (pauseMotor LEFT_MOTOR) r in
      call (pauseMotor RIGHT_MOTOR) r
  else r.

(** The heartbeat interrupt, with [leds] what [GPIO_getInputPinValue]
    returns for the three LED pins. *)
Definition T32_INT1_IRQHandler (leds : Z) (r : Robot) : Robot :=
  let r := call Timer32_clearInterruptFlag r in
  if negb (leds =? 0) then
    call (GPIO_setOutputLowOnPin GPIO_PORT_P2 [RED_LED; GREEN_LED; BLUE_LED]) r
  else
    call (GPIO_setOutputHighOnPin GPIO_PORT_P2 [currentLED r]) r.

(** The robot when [main] enters its loop: [currentLED] as initialised,
    and the calls of [initGPIOComms].  (The clock, timer, UART, motor and
    sensor bring-up before it makes none of the calls recorded here.) *)
Definition robot_start : Robot :=
  initGPIOComms (mkRobot RED_LED []).

(** A run of the robot: passes of the loop, with heartbeat interrupts
    between them.  The interrupt writes port 2 and reads [currentLED]
    only, so where within a pass it falls changes neither the motor
    commands nor port 1. *)
Inductive Event : Set :=
| Pass (inp : Readings)
| Heartbeat (leds : Z).

Definition robot_step (r : Robot) (e : Event) : Robot :=
  match e with
  | Pass inp => main_loop_body inp r
  | Heartbeat leds => T32_INT1_IRQHandler leds r
  end.

Definition robot_run (events : list Event) (r : Robot) : Robot :=
  fold_left robot_step events r.

(** What a motor was told, in order. *)
Inductive MotorCommand : Set :=
| Duty (duty : Z)
| Start
| Pause.

Definition motor_command (m : Motor) (c : Call) : list MotorCommand :=
  match c, m with
  | setMotorDutyCycle LEFT_MOTOR d, LEFT_MOTOR => [Duty d]
  | setMotorDutyCycle RIGHT_MOTOR d, RIGHT_MOTOR => [Duty d]
  | startMotor LEFT_MOTOR, LEFT_MOTOR => [Start]
  | startMotor RIGHT_MOTOR, RIGHT_MOTOR => [Start]
  | pauseMotor LEFT_MOTOR, LEFT_MOTOR => [Pause]
  | pauseMotor RIGHT_MOTOR, RIGHT_MOTOR => [Pause]
  | _, _ => []
  end.

Definition motor_commands (m : Motor) (cs : list Call) : list MotorCommand :=
  flat_map (motor_command m) cs.

(** The duty cycles commanded to a motor, in order. *)
Definition duty_of (m : Motor) (c : Call) : list Z :=
  match c, m with
  | setMotorDutyCycle LEFT_MOTOR d, LEFT_MOTOR => [d]
  | setMotorDutyCycle RIGHT_MOTOR d, RIGHT_MOTOR => [d]
  | _, _ => []
  end.

Definition duties (m : Motor) (cs : list Call) : list Z := flat_map (duty_of m) cs.

(** The levels written to pin 0 of port 1, in order. *)
Definition indicator_write (c : Call) : list bool :=
  match c with
  | GPIO_setOutputLowOnPin GPIO_PORT_P1 pins =>
      if existsb (fun p => match p with GPIO_PIN0 => true | _ => false end) pins
      then [false] else []
  | GPIO_setOutputHighOnPin GPIO_PORT_P1 pins =>
      if existsb (fun p => match p with GPIO_PIN0 => true | _ => false end) pins
      then [true] else []
  | _ => []
  end.

Definition indicator_writes (cs : list Call) : list bool := flat_map indicator_write cs.


(** The colour a pass of the loop leaves in [currentLED], as the comments
    of the loop name the three cases. *)
Definition decision_colour (inp : Readings) : Pin :=
  if transmission_valid inp =? 1 then
    if motion_control inp =? 1 then RED_LED else GREEN_LED
  else BLUE_LED.

Definition last_colour (events : list Event) (start : Pin) : Pin :=
  fold_left (fun c e => match e with
                        | Pass inp => decision_colour inp
                        | Heartbeat _ => c
                        end) events start.

(** The example run: go, a heartbeat, signal lost, stop with the bumper
    pressed. *)
Definition robot_events_example : list Event :=
  [Pass (mkReadings 1 0 false 0); Heartbeat 0; Pass (mkReadings 0 0 false 0);
   Pass (mkReadings 1 1 true 1)].

(** * Proofs *)

(** ** Memory *)

Lemma deref_store_same : forall m p v, deref (store m p v) p = v.
Proof. intros m [] v; reflexivity. Qed.

Lemma deref_store_other : forall m p q v, q <> p -> deref (store m p v) q = deref m q.
Proof. intros m [] [] v H; try reflexivity; congruence. Qed.

Lemma links_set_next_same : forall m p v,
  links (set_next m p v) p = mkElem v (prev (links m p)).
Proof. intros; unfold links, set_next; rewrite deref_store_same; reflexivity. Qed.

Lemma links_set_prev_same : forall m p v,
  links (set_prev m p v) p = mkElem (next (links m p)) v.
Proof. intros; unfold links, set_prev; rewrite deref_store_same; reflexivity. Qed.

Lemma deref_set_next_other : forall m p q v,
  q <> p -> deref (set_next m p v) q = deref m q.
Proof. intros; unfold set_next; apply deref_store_other; assumption. Qed.

Lemma deref_set_prev_other : forall m p q v,
  q <> p -> deref (set_prev m p v) q = deref m q.
Proof. intros; unfold set_prev; apply deref_store_other; assumption. Qed.

Lemma links_set_next_other : forall m p q v,
  q <> p -> links (set_next m p v) q = links m q.
Proof. intros; unfold links; rewrite deref_set_next_other; auto. Qed.

Lemma links_set_prev_other : forall m p q v,
  q <> p -> links (set_prev m p v) q = links m q.
Proof. intros; unfold links; rewrite deref_set_prev_other; auto. Qed.

(** Relinking never touches the buffer a descriptor names. *)
Lemma buf_set_next : forall m p v q,
  bufPtr (deref (set_next m p v) q) = bufPtr (deref m q) /\
  bufSize (deref (set_next m p v) q) = bufSize (deref m q).
Proof.
  intros m p v q. destruct (TxnPtr_eq_dec q p) as [->|Hne].
  - unfold set_next; rewrite deref_store_same; split; reflexivity.
  - rewrite deref_set_next_other by assumption; split; reflexivity.
Qed.

Lemma buf_set_prev : forall m p v q,
  bufPtr (deref (set_prev m p v) q) = bufPtr (deref m q) /\
  bufSize (deref (set_prev m p v) q) = bufSize (deref m q).
Proof.
  intros m p v q. destruct (TxnPtr_eq_dec q p) as [->|Hne].
  - unfold set_prev; rewrite deref_store_same; split; reflexivity.
  - rewrite deref_set_prev_other by assumption; split; reflexivity.
Qed.

(** ** Segments *)

Lemma dseg_app : forall m l1 l2 pp p q qn,
  dseg m pp p q qn (l1 ++ l2) <->
  exists j jn, dseg m pp p j jn l1 /\ dseg m j jn q qn l2.
Proof.
  intros m l1; induction l1 as [|x l1 IH]; intros l2 pp p q qn; simpl.
  - split.
    + intros H; exists pp, p; auto.
    + intros (j & jn & (-> & ->) & H); exact H.
  - split.
    + intros (Hp & Hpp & H). apply IH in H. destruct H as (j & jn & H1 & H2).
      exists j, jn; auto.
    + intros (j & jn & (Hp & Hpp & H1) & H2).
      split; [assumption|]. split; [assumption|].
      apply IH. exists j, jn; auto.
Qed.

Lemma dseg_snoc : forall m l y pp p q qn,
  dseg m pp p q qn (l ++ [y]) <->
  q = Some y /\ next (links m y) = qn /\ dseg m pp p (prev (links m y)) (Some y) l.
Proof.
  intros m l y pp p q qn. rewrite dseg_app. simpl. split.
  - intros (j & jn & H1 & -> & <- & <- & <-). auto.
  - intros (-> & <- & H). exists (prev (links m y)), (Some y). auto.
Qed.

Lemma dseg_frame : forall m m' l,
  (forall x, In x l -> links m' x = links m x) ->
  forall pp p q qn, dseg m pp p q qn l -> dseg m' pp p q qn l.
Proof.
  intros m m' l; induction l as [|x r IH]; intros Hag pp p q qn; simpl.
  - auto.
  - intros (Hp & Hpp & H). rewrite (Hag x) by (left; reflexivity).
    split; [assumption|]. split; [assumption|].
    apply IH; [|assumption]. intros y Hy; apply Hag; right; assumption.
Qed.

(** The last descriptor of a non-empty segment is the one [q] names. *)
Lemma dseg_last_in : forall m l pp p q qn,
  dseg m pp p q qn l -> l <> [] -> exists y, q = Some y /\ In y l.
Proof.
  intros m l pp p q qn H Hne.
  destruct (exists_last Hne) as (l' & y & ->).
  apply dseg_snoc in H. destruct H as (-> & _ & _).
  exists y; split; [reflexivity|]. apply in_or_app; right; left; reflexivity.
Qed.

Lemma walk_dseg : forall m l fuel pp p q,
  dseg m pp p q None l -> (length l <= fuel)%nat -> walk fuel m p = l.
Proof.
  intros m l; induction l as [|x r IH]; intros fuel pp p q H Hlen; simpl in *.
  - destruct H as (-> & _). destruct fuel; reflexivity.
  - destruct H as (-> & _ & H). destruct fuel as [|f]; [lia|].
    simpl. f_equal. eapply IH; [eassumption|lia].
Qed.

Lemma all_TxnPtr : forall t, In t i2sTransactionList.
Proof. intros []; simpl; auto. Qed.

Lemma NoDup_TxnPtr_length : forall l : list TxnPtr, NoDup l -> (length l <= NUMBUFS)%nat.
Proof.
  intros l H.
  change NUMBUFS with (length i2sTransactionList).
  apply NoDup_incl_length; [assumption|].
  intros t _; apply all_TxnPtr.
Qed.

Lemma repr_walk : forall m L l, repr m L l -> walk NUMBUFS m (head L) = l.
Proof.
  intros m L l (H & Hnd). eapply walk_dseg; [eassumption|].
  apply NoDup_TxnPtr_length; assumption.
Qed.

Lemma repr_head : forall m L l, repr m L l -> head L = hd_error l.
Proof.
  intros m L [|x r] (H & _); simpl in *.
  - tauto.
  - tauto.
Qed.

Lemma repr_frame : forall m m' L l,
  (forall x, In x l -> links m' x = links m x) ->
  repr m L l -> repr m' L l.
Proof.
  intros m m' L l Hag (H & Hnd). split; [|assumption].
  eapply dseg_frame; eassumption.
Qed.

(** ** [List_put] on a well-formed queue *)

Lemma NoDup_snoc : forall (l : list TxnPtr) x, NoDup l -> ~ In x l -> NoDup (l ++ [x]).
Proof.
  intros l x Hnd Hx. apply NoDup_app.
  - assumption.
  - constructor; [intros []|constructor].
  - intros a Ha [<-|[]]. contradiction.
Qed.

Lemma NoDup_snoc_inv : forall (l : list TxnPtr) y,
  NoDup (l ++ [y]) -> NoDup l /\ ~ In y l.
Proof.
  intros l y H. split.
  - eapply NoDup_app_remove_r; eassumption.
  - apply NoDup_remove_2 in H. rewrite app_nil_r in H. assumption.
Qed.

Lemma List_put_core_repr : forall m L l x m' L',
  repr m L l -> ~ In x l ->
  List_put_core m L x = (m', L') ->
  repr m' L' (l ++ [x]).
Proof.
  intros m [h t] l x m' L' (H & Hnd) Hx Heq.
  unfold List_put_core in Heq; simpl in Heq, H.
  split; [|apply NoDup_snoc; assumption].
  destruct l as [|a l0].
  - simpl in H. destruct H as (-> & <-).
    injection Heq as <- <-. simpl.
    rewrite links_set_prev_same. simpl. rewrite links_set_next_same. simpl.
    auto.
  - assert (Hne : a :: l0 <> []) by discriminate.
    assert (Hh : h = Some a) by (simpl in H; tauto).
    destruct (exists_last Hne) as (l' & y & El). rewrite El in *. clear El Hne.
    apply dseg_snoc in H. destruct H as (-> & Hny & H).
    apply NoDup_snoc_inv in Hnd. destruct Hnd as (Hnd & Hy).
    assert (Hxy : x <> y) by (intros ->; apply Hx, in_or_app; right; left; reflexivity).
    subst h. injection Heq as <- <-. simpl.
    apply dseg_snoc. split; [reflexivity|].
    rewrite links_set_next_other by assumption.
    rewrite links_set_prev_same. simpl. rewrite links_set_next_same. simpl.
    split; [reflexivity|].
    apply dseg_snoc. split; [reflexivity|].
    rewrite links_set_next_same. simpl. split; [reflexivity|].
    rewrite links_set_prev_other, links_set_next_other by congruence.
    eapply dseg_frame; [|eassumption].
    intros w Hw.
    assert (w <> y) by (intros ->; contradiction).
    assert (w <> x) by (intros ->; apply Hx, in_or_app; left; assumption).
    rewrite links_set_next_other, links_set_prev_other, links_set_next_other by assumption.
    reflexivity.
Qed.

(** [List_put] writes the element and the old tail, nothing else. *)
Lemma List_put_core_frame : forall m L x m' L' w,
  List_put_core m L x = (m', L') ->
  w <> x -> tail L <> Some w ->
  deref m' w = deref m w.
Proof.
  intros m [h t] x m' L' w Heq Hwx Hwt.
  unfold List_put_core in Heq; simpl in Heq, Hwt.
  injection Heq as <- _.
  destruct t as [y|].
  - rewrite deref_set_next_other by congruence.
    rewrite deref_set_prev_other, deref_set_next_other by assumption. reflexivity.
  - rewrite deref_set_prev_other, deref_set_next_other by assumption. reflexivity.
Qed.

Lemma List_put_core_buf : forall m L x m' L' w,
  List_put_core m L x = (m', L') ->
  bufPtr (deref m' w) = bufPtr (deref m w) /\
  bufSize (deref m' w) = bufSize (deref m w).
Proof.
  intros m [h t] x m' L' w Heq.
  unfold List_put_core in Heq; simpl in Heq.
  injection Heq as <- _.
  destruct t as [y|].
  - destruct (buf_set_next (set_prev (set_next m x None) x (Some y)) y (Some x) w) as (-> & ->).
    destruct (buf_set_prev (set_next m x None) x (Some y) w) as (-> & ->).
    apply buf_set_next.
  - destruct (buf_set_prev (set_next m x None) x None w) as (-> & ->).
    apply buf_set_next.
Qed.

Lemma repr_tail_in : forall m L l y, repr m L l -> tail L = Some y -> In y l.
Proof.
  intros m L l y (H & _) Ht.
  destruct l as [|a l0].
  - simpl in H. destruct H as (_ & H). congruence.
  - destruct (dseg_last_in _ _ _ _ _ _ H) as (z & Hz & Hin); [discriminate|].
    congruence.
Qed.

(** A queue that holds neither the element nor shares a descriptor with the
    queue appended to is left as it was. *)
Lemma List_put_core_other : forall m L l x m' L' K k,
  repr m L l ->
  List_put_core m L x = (m', L') ->
  repr m K k -> ~ In x k -> (forall w, In w l -> ~ In w k) ->
  repr m' K k.
Proof.
  intros m L l x m' L' K k HL Heq HK Hx Hdisj.
  eapply repr_frame; [|eassumption].
  intros w Hw. unfold links. f_equal.
  eapply List_put_core_frame; [eassumption| |].
  - intros ->; contradiction.
  - intros Ht. apply (Hdisj w); [|assumption].
    eapply repr_tail_in; eassumption.
Qed.

(** ** [List_remove] on a well-formed queue *)


Lemma List_remove_core_unfold : forall m L x,
  List_remove_core m L x =
  let '(m1, L1) := unlink_next m L x in
  match prev (links m1 x) with
  | None => (m1, mkList (next (links m1 x)) (tail L1))
  | Some p => (set_next m1 p (next (links m1 x)), L1)
  end.
Proof. intros; unfold List_remove_core, unlink_next. reflexivity. Qed.

Lemma unlink_next_spec : forall m L x l2 j m1 L1,
  dseg m (Some x) (next (links m x)) (tail L) None l2 ->
  NoDup (x :: l2) ->
  unlink_next m L x = (m1, L1) ->
  prev (links m x) = j ->
  dseg m1 j (next (links m x)) (tail L1) None l2 /\
  head L1 = head L /\
  links m1 x = links m x /\
  (forall w, ~ In w l2 -> deref m1 w = deref m w) /\
  (forall w, next (links m1 w) = next (links m w)).
Proof.
  intros m L x l2 j m1 L1 H Hnd Heq Hj.
  unfold unlink_next in Heq.
  apply NoDup_cons_iff in Hnd. destruct Hnd as (Hx & Hnd).
  destruct l2 as [|b l2'].
  - simpl in H. destruct H as (Hn & _). rewrite Hn in Heq.
    injection Heq as <- <-. simpl. rewrite Hn, Hj. auto.
  - simpl in H. destruct H as (Hn & Hpb & H). rewrite Hn in Heq.
    injection Heq as <- <-.
    assert (Hxb : x <> b) by (intros ->; apply Hx; left; reflexivity).
    apply NoDup_cons_iff in Hnd. destruct Hnd as (Hb & Hnd).
    rewrite Hn. simpl. rewrite links_set_prev_same. simpl.
    repeat split; auto.
    + eapply dseg_frame; [|eassumption].
      intros w Hw. apply links_set_prev_other. intros ->; contradiction.
    + apply links_set_prev_other; assumption.
    + intros w Hw. apply deref_set_prev_other. intros ->; apply Hw; left; reflexivity.
    + intros w. destruct (TxnPtr_eq_dec w b) as [->|Hwb].
      * rewrite links_set_prev_same; reflexivity.
      * rewrite links_set_prev_other by assumption; reflexivity.
Qed.

Lemma List_remove_core_repr : forall m L l1 x l2 m' L',
  repr m L (l1 ++ x :: l2) ->
  List_remove_core m L x = (m', L') ->
  repr m' L' (l1 ++ l2) /\
  (forall w, ~ In w (l1 ++ l2) -> deref m' w = deref m w).
Proof.
  intros m L l1 x l2 m' L' (H & Hnd) Heq.
  rewrite List_remove_core_unfold in Heq.
  destruct (unlink_next m L x) as (m1, L1) eqn:E1.
  apply dseg_app in H. destruct H as (j & jn & H1 & H2).
  simpl in H2. destruct H2 as (-> & Hj & H2).
  assert (Hnd2 : NoDup (x :: l2)) by (eapply NoDup_app_remove_l; eassumption).
  destruct (unlink_next_spec _ _ _ _ _ _ _ H2 Hnd2 E1 Hj)
    as (R & Hhead & Hlx & Hfr1 & Hnext1).
  assert (Hnd' : NoDup (l1 ++ l2)) by (eapply NoDup_remove_1; eassumption).
  assert (Hx : ~ In x (l1 ++ l2)) by (eapply NoDup_remove_2; eassumption).
  assert (Hdisj : forall w, In w l1 -> ~ In w l2).
  { intros w Hw1 Hw2. clear - Hnd Hw1 Hw2.
    induction l1 as [|a l1 IH]; [destruct Hw1|].
    simpl in Hnd. apply NoDup_cons_iff in Hnd. destruct Hnd as (Ha & Hnd).
    destruct Hw1 as [->|Hw1].
    - apply Ha. apply in_or_app; right; right; assumption.
    - apply IH; assumption. }
  rewrite Hlx, Hj in Heq.
  destruct l1 as [|a0 l0].
  - simpl in H1. destruct H1 as (Hh & <-).
    injection Heq as <- <-. simpl.
    split; [split; assumption|].
    intros w Hw. apply Hfr1. assumption.
  - assert (Hne : a0 :: l0 <> []) by discriminate.
    destruct (exists_last Hne) as (l1' & a & El). rewrite El in *. clear El Hne a0 l0.
    apply dseg_snoc in H1. destruct H1 as (-> & Hna & H1).
    injection Heq as <- <-.
    assert (Ha2 : ~ In a l2) by (apply Hdisj, in_or_app; right; left; reflexivity).
    assert (Hnd1 : NoDup (l1' ++ [a])) by (eapply NoDup_app_remove_r; eassumption).
    apply NoDup_snoc_inv in Hnd1. destruct Hnd1 as (Hnd1 & Ha1).
    split; [split; [|assumption]|].
    + apply dseg_app. exists (Some a), (next (links m x)). split.
      * apply dseg_snoc. split; [reflexivity|].
        rewrite links_set_next_same. simpl. split; [reflexivity|].
        assert (Hla : links m1 a = links m a) by (unfold links; rewrite (Hfr1 a Ha2); reflexivity).
        rewrite Hla.
        eapply dseg_frame; [|rewrite Hhead; eassumption].
        intros w Hw. rewrite links_set_next_other by (intros ->; contradiction).
        unfold links. rewrite Hfr1; [reflexivity|].
        apply Hdisj, in_or_app; left; assumption.
      * eapply dseg_frame; [|eassumption].
        intros w Hw. apply links_set_next_other. intros ->; contradiction.
    + intros w Hw. rewrite deref_set_next_other.
      * apply Hfr1. intros Hw2; apply Hw, in_or_app; right; assumption.
      * intros ->. apply Hw, in_or_app; left. apply in_or_app; right; left; reflexivity.
Qed.

Lemma List_remove_core_buf : forall m L x m' L' w,
  List_remove_core m L x = (m', L') ->
  bufPtr (deref m' w) = bufPtr (deref m w) /\
  bufSize (deref m' w) = bufSize (deref m w).
Proof.
  intros m L x m' L' w Heq. unfold List_remove_core in Heq.
  destruct (next (links m x)) as [n|];
    [ destruct (prev (links (set_prev m n (prev (links m x))) x)) as [p|]
    | destruct (prev (links m x)) as [p|] ];
    injection Heq as <- _.
  - destruct (buf_set_next (set_prev m n (prev (links m x))) p
                (next (links (set_prev m n (prev (links m x))) x)) w) as (-> & ->).
    apply buf_set_prev.
  - apply buf_set_prev.
  - apply buf_set_next.
  - split; reflexivity.
Qed.

Lemma List_remove_core_other : forall m L l1 x l2 m' L' K k,
  repr m L (l1 ++ x :: l2) ->
  List_remove_core m L x = (m', L') ->
  repr m K k -> (forall w, In w (l1 ++ l2) -> ~ In w k) ->
  repr m' K k.
Proof.
  intros m L l1 x l2 m' L' K k HL Heq HK Hdisj.
  destruct (List_remove_core_repr _ _ _ _ _ _ _ HL Heq) as (_ & Hfr).
  eapply repr_frame; [|eassumption].
  intros w Hw. unfold links. f_equal. apply Hfr.
  intros Hin. apply (Hdisj w); assumption.
Qed.

(** The predecessor lookup in a well-formed queue. *)
Lemma repr_prev_first : forall m L t l, repr m L (t :: l) -> prev (links m t) = None.
Proof. intros m L t l (H & _). simpl in H. tauto. Qed.

Lemma repr_prev_next : forall m L l1 p t l2,
  repr m L (l1 ++ p :: t :: l2) -> prev (links m t) = Some p.
Proof.
  intros m L l1 p t l2 (H & _).
  apply dseg_app in H. destruct H as (j & jn & _ & H).
  simpl in H. tauto.
Qed.

(** ** The handler on well-formed queues *)

Arguments List_put_core : simpl never.
Arguments List_remove_core : simpl never.

Lemma I2SreadCallback_head : forall s t c,
  repr (txns s) (i2sReadList s) (t :: c) ->
  I2SreadCallback t s = s.
Proof.
  intros s t c H. unfold I2SreadCallback, List_prev.
  rewrite (repr_prev_first _ _ _ _ H). reflexivity.
Qed.

Lemma I2SreadCallback_move : forall s c1 p t c2 q,
  repr (txns s) (i2sReadList s) (c1 ++ p :: t :: c2) ->
  repr (txns s) (treatmentList s) q ->
  (forall w, In w (c1 ++ p :: t :: c2) -> ~ In w q) ->
  repr (txns (I2SreadCallback t s)) (i2sReadList (I2SreadCallback t s)) (c1 ++ t :: c2) /\
  repr (txns (I2SreadCallback t s)) (treatmentList (I2SreadCallback t s)) (q ++ [p]) /\
  semDataReadyForTreatment (I2SreadCallback t s) = S (semDataReadyForTreatment s) /\
  semErrorCallback (I2SreadCallback t s) = semErrorCallback s /\
  features (I2SreadCallback t s) = features s /\
  DOE (I2SreadCallback t s) = DOE s /\
  DOUT_Control (I2SreadCallback t s) = DOUT_Control s /\
  console (I2SreadCallback t s) = console s /\
  (forall w, bufPtr (deref (txns (I2SreadCallback t s)) w) = bufPtr (deref (txns s) w) /\
             bufSize (deref (txns (I2SreadCallback t s)) w) = bufSize (deref (txns s) w)).
Proof.
  intros s c1 p t c2 q HR HT Hdisj.
  unfold I2SreadCallback, List_prev.
  rewrite (repr_prev_next _ _ _ _ _ _ HR).
  unfold List_remove, List_put. cbn.
  destruct (List_remove_core (txns s) (i2sReadList s) p) as (m1, R1) eqn:E1. cbn.
  destruct (List_put_core m1 (treatmentList s) p) as (m2, T2) eqn:E2. cbn.
  destruct (List_remove_core_repr _ _ _ _ _ _ _ HR E1) as (HR1 & _).
  assert (Hnd : NoDup (c1 ++ p :: t :: c2)) by (destruct HR; assumption).
  assert (Hp : ~ In p (c1 ++ t :: c2)) by (apply NoDup_remove_2; assumption).
  assert (Hpq : ~ In p q).
  { apply Hdisj. apply in_or_app; right; left; reflexivity. }
  assert (Hdisj' : forall w, In w (c1 ++ t :: c2) -> ~ In w q).
  { intros w Hw. apply Hdisj. apply in_app_or in Hw. apply in_or_app.
    destruct Hw as [Hw|Hw]; [left; assumption|right; right; assumption]. }
  assert (HT1 : repr m1 (treatmentList s) q).
  { exact (List_remove_core_other _ _ c1 p (t :: c2) _ _ _ _ HR E1 HT Hdisj'). }
  assert (HR2 : repr m2 R1 (c1 ++ t :: c2)).
  { apply (List_put_core_other _ _ _ _ _ _ _ _ HT1 E2 HR1 Hp).
    intros w Hw Hw'. apply (Hdisj' w); assumption. }
  assert (HT2 : repr m2 T2 (q ++ [p])).
  { exact (List_put_core_repr _ _ _ _ _ _ HT1 Hpq E2). }
  split; [exact HR2|]. split; [exact HT2|].
  repeat split; try reflexivity.
  - destruct (List_put_core_buf _ _ _ _ _ w E2) as (-> & _).
    destruct (List_remove_core_buf _ _ _ _ _ w E1) as (-> & _). reflexivity.
  - destruct (List_put_core_buf _ _ _ _ _ w E2) as (_ & ->).
    destruct (List_remove_core_buf _ _ _ _ _ w E1) as (_ & ->). reflexivity.
Qed.

(** A member of a queue is its head or has a predecessor in it. *)
Lemma in_head_or_pred : forall (t : TxnPtr) c,
  In t c -> (exists c', c = t :: c') \/ (exists c1 p c2, c = c1 ++ p :: t :: c2).
Proof.
  intros t c Hin. apply in_split in Hin. destruct Hin as (l1 & l2 & ->).
  destruct l1 as [|a l].
  - left; exists l2; reflexivity.
  - right. assert (Hne : a :: l <> []) by discriminate.
    destruct (exists_last Hne) as (c1 & p & ->).
    exists c1, p, l2. rewrite <- app_assoc. reflexivity.
Qed.

(** ** The worker's steps on well-formed queues *)

Lemma drive_outputs_frame : forall r s,
  txns (drive_outputs r s) = txns s /\
  i2sReadList (drive_outputs r s) = i2sReadList s /\
  treatmentList (drive_outputs r s) = treatmentList s /\
  semDataReadyForTreatment (drive_outputs r s) = semDataReadyForTreatment s /\
  semErrorCallback (drive_outputs r s) = semErrorCallback s /\
  features (drive_outputs r s) = features s /\
  DOE (drive_outputs r s) = DOE s.
Proof.
  intros r s. unfold drive_outputs.
  destruct (PrimFloat.ltb 0.5 (classification_value r GO_LABEL_INDEX));
    [|destruct (PrimFloat.ltb 0.5 (classification_value r STOP_LABEL_INDEX))];
    simpl; repeat split; reflexivity.
Qed.


Lemma classified_frame : forall t run s,
  txns (classified t run s) = txns s /\
  i2sReadList (classified t run s) = i2sReadList s /\
  treatmentList (classified t run s) = treatmentList s /\
  semDataReadyForTreatment (classified t run s) = semDataReadyForTreatment s /\
  semErrorCallback (classified t run s) = semErrorCallback s /\
  features (classified t run s) = bufPtr (deref (txns s) t) /\
  DOE (classified t run s) = DOE s.
Proof.
  intros t run s. unfold classified.
  destruct (drive_outputs_frame (result run) (set_features (bufPtr (deref (txns s) t)) s))
    as (-> & -> & -> & -> & -> & -> & ->).
  simpl. repeat split; reflexivity.
Qed.

Lemma worker_treat_failure : forall t run s,
  res run <> 0 ->
  worker_treat t run s =
  (ei_printf ("run_classifier fail." ++ CRLF) (classified t run s), Exited 1).
Proof.
  intros t run s H. unfold worker_treat.
  destruct (Z.eqb_spec (res run) 0) as [E|E]; [contradiction|]. reflexivity.
Qed.

Lemma worker_treat_success : forall t run s,
  res run = 0 ->
  worker_treat t run s =
  (List_remove ref_treatmentList t (classified t run s), Returning t).
Proof.
  intros t run s H. unfold worker_treat. rewrite H. reflexivity.
Qed.

Lemma List_remove_treatment_head : forall s t q c,
  repr (txns s) (treatmentList s) (t :: q) ->
  repr (txns s) (i2sReadList s) c ->
  (forall w, In w c -> ~ In w (t :: q)) ->
  repr (txns (List_remove ref_treatmentList t s))
       (treatmentList (List_remove ref_treatmentList t s)) q /\
  repr (txns (List_remove ref_treatmentList t s))
       (i2sReadList (List_remove ref_treatmentList t s)) c /\
  semDataReadyForTreatment (List_remove ref_treatmentList t s) = semDataReadyForTreatment s /\
  semErrorCallback (List_remove ref_treatmentList t s) = semErrorCallback s /\
  features (List_remove ref_treatmentList t s) = features s /\
  DOE (List_remove ref_treatmentList t s) = DOE s /\
  DOUT_Control (List_remove ref_treatmentList t s) = DOUT_Control s /\
  console (List_remove ref_treatmentList t s) = console s /\
  (forall w, bufPtr (deref (txns (List_remove ref_treatmentList t s)) w) = bufPtr (deref (txns s) w) /\
             bufSize (deref (txns (List_remove ref_treatmentList t s)) w) = bufSize (deref (txns s) w)).
Proof.
  intros s t q c HT HR Hdisj.
  unfold List_remove. cbn.
  destruct (List_remove_core (txns s) (treatmentList s) t) as (m1, T1) eqn:E1. cbn.
  destruct (List_remove_core_repr _ _ nil _ _ _ _ HT E1) as (HT1 & _).
  split; [exact HT1|].
  split.
  { eapply (List_remove_core_other _ _ nil); try eassumption.
    intros w Hw Hc. apply (Hdisj w Hc). right; exact Hw. }
  repeat split; try reflexivity.
  - destruct (List_remove_core_buf _ _ _ _ _ w E1) as (-> & _). reflexivity.
  - destruct (List_remove_core_buf _ _ _ _ _ w E1) as (_ & ->). reflexivity.
Qed.

Lemma List_put_capture_tail : forall s t q c,
  repr (txns s) (i2sReadList s) c ->
  repr (txns s) (treatmentList s) q ->
  ~ In t c -> ~ In t q -> (forall w, In w c -> ~ In w q) ->
  repr (txns (List_put ref_i2sReadList t s))
       (i2sReadList (List_put ref_i2sReadList t s)) (c ++ [t]) /\
  repr (txns (List_put ref_i2sReadList t s))
       (treatmentList (List_put ref_i2sReadList t s)) q /\
  semDataReadyForTreatment (List_put ref_i2sReadList t s) = semDataReadyForTreatment s /\
  semErrorCallback (List_put ref_i2sReadList t s) = semErrorCallback s /\
  features (List_put ref_i2sReadList t s) = features s /\
  DOE (List_put ref_i2sReadList t s) = DOE s /\
  DOUT_Control (List_put ref_i2sReadList t s) = DOUT_Control s /\
  console (List_put ref_i2sReadList t s) = console s /\
  (forall w, bufPtr (deref (txns (List_put ref_i2sReadList t s)) w) = bufPtr (deref (txns s) w) /\
             bufSize (deref (txns (List_put ref_i2sReadList t s)) w) = bufSize (deref (txns s) w)).
Proof.
  intros s t q c HR HT Htc Htq Hdisj.
  unfold List_put. cbn.
  destruct (List_put_core (txns s) (i2sReadList s) t) as (m1, R1) eqn:E1. cbn.
  split; [exact (List_put_core_repr _ _ _ _ _ _ HR Htc E1)|].
  split; [exact (List_put_core_other _ _ _ _ _ _ _ _ HR E1 HT Htq Hdisj)|].
  repeat split; try reflexivity.
  - destruct (List_put_core_buf _ _ _ _ _ w E1) as (-> & _). reflexivity.
  - destruct (List_put_core_buf _ _ _ _ _ w E1) as (_ & ->). reflexivity.
Qed.

(** ** The invariant *)

Lemma NoDup_app_disjoint : forall (l1 l2 : list TxnPtr) w,
  NoDup (l1 ++ l2) -> In w l1 -> ~ In w l2.
Proof.
  intros l1 l2 w Hnd H1 H2.
  induction l1 as [|a l1 IH]; [destruct H1|].
  simpl in Hnd. apply NoDup_cons_iff in Hnd. destruct Hnd as (Ha & Hnd).
  destruct H1 as [->|H1].
  - apply Ha. apply in_or_app; right; assumption.
  - apply IH; assumption.
Qed.

Lemma NoDup_i2sTransactionList : NoDup i2sTransactionList.
Proof.
  unfold i2sTransactionList.
  repeat constructor; simpl; intuition discriminate.
Qed.

Lemma partition_NoDup : forall c q f : list TxnPtr,
  Permutation (c ++ q ++ f) i2sTransactionList -> NoDup (c ++ q ++ f).
Proof.
  intros c q f H. eapply Permutation_NoDup.
  - apply Permutation_sym; eassumption.
  - apply NoDup_i2sTransactionList.
Qed.

Lemma partition_disjoint : forall c q f : list TxnPtr,
  Permutation (c ++ q ++ f) i2sTransactionList ->
  forall w, In w c -> ~ In w q.
Proof.
  intros c q f H w Hc Hq.
  apply (NoDup_app_disjoint c (q ++ f) w).
  - apply partition_NoDup; assumption.
  - assumption.
  - apply in_or_app; left; assumption.
Qed.

Lemma perm_move : forall (c1 r q f : list TxnPtr) p,
  Permutation ((c1 ++ r) ++ (q ++ [p]) ++ f) ((c1 ++ p :: r) ++ q ++ f).
Proof.
  intros c1 r q f p. rewrite <- !app_assoc. apply Permutation_app_head.
  simpl. apply Permutation_sym.
  eapply Permutation_trans; [apply Permutation_middle|].
  apply Permutation_app_head. apply Permutation_middle.
Qed.

Lemma initial_state : forall boot,
  txns (fst (initial boot)) =
    mkDescriptors
      (mkTxn (mkElem (Some Txn2) None) (Some buf1) BUFSIZE)
      (mkTxn (mkElem (Some Txn3) (Some Txn1)) (Some buf2) BUFSIZE)
      (mkTxn (mkElem None (Some Txn2)) (Some buf3) BUFSIZE) /\
  i2sReadList (fst (initial boot)) = mkList (Some Txn1) (Some Txn3) /\
  treatmentList (fst (initial boot)) = mkList None None /\
  semDataReadyForTreatment (fst (initial boot)) = 0%nat /\
  semErrorCallback (fst (initial boot)) = 0%nat.
Proof. intros boot. repeat split; reflexivity. Qed.

Lemma Inv_initial : forall boot, Inv (initial boot).
Proof.
  intros boot.
  destruct (initial_state boot) as (Em & ER & ET & ES & EE).
  exists [Txn1; Txn2; Txn3], [].
  rewrite Em, ER, ET, ES, EE.
  assert (snd (initial boot) = AtWait) as -> by reflexivity.
  split.
  { split; [simpl; repeat split; reflexivity|apply NoDup_i2sTransactionList]. }
  split.
  { split; [simpl; split; reflexivity|constructor]. }
  split; [apply Permutation_refl|].
  split; [discriminate|].
  split; [reflexivity|].
  split; [intros t Ht; discriminate|].
  split; [reflexivity|].
  intros []; split; reflexivity.
Qed.

Lemma capture_queue_repr : forall s c,
  repr (txns s) (i2sReadList s) c -> capture_queue s = c.
Proof. intros s c H. unfold capture_queue, queue. simpl. apply repr_walk; assumption. Qed.

Lemma treatment_queue_repr : forall s q,
  repr (txns s) (treatmentList s) q -> treatment_queue s = q.
Proof. intros s q H. unfold treatment_queue, queue. simpl. apply repr_walk; assumption. Qed.

Lemma Inv_read : forall s pc t,
  Inv (s, pc) -> In t (capture_queue s) -> Inv (I2SreadCallback t s, pc).
Proof.
  intros s pc t (c & q & HR & HT & Hperm & Hc & Hlen & Hhd & Herr & Hbuf) Hin.
  simpl in *.
  rewrite (capture_queue_repr _ _ HR) in Hin.
  destruct (in_head_or_pred _ _ Hin) as [(c' & ->)|(c1 & p & c2 & ->)].
  - rewrite (I2SreadCallback_head _ _ _ HR).
    exists (t :: c'), q. simpl. auto 10.
  - destruct (I2SreadCallback_move s c1 p t c2 q HR HT (partition_disjoint _ _ _ Hperm))
      as (HR' & HT' & Es & Ee & _ & _ & _ & _ & Hb).
    exists (c1 ++ t :: c2), (q ++ [p]). simpl.
    split; [exact HR'|]. split; [exact HT'|].
    split; [eapply Permutation_trans; [apply perm_move|exact Hperm]|].
    split; [destruct c1; discriminate|].
    split; [rewrite length_app, Es, Hlen; simpl; lia|].
    split.
    { intros t0 Ht0. specialize (Hhd t0 Ht0).
      destruct q; [discriminate|]. exact Hhd. }
    split; [rewrite Ee; exact Herr|].
    intros w. destruct (Hb w) as (-> & ->). apply Hbuf.
Qed.

Lemma Inv_wake : forall s sys',
  Inv (s, AtWait) -> worker_wake s = Some sys' ->
  Inv sys' /\ exists t q', treatment_queue s = t :: q' /\ snd sys' = Treating t.
Proof.
  intros s sys' (c & q & HR & HT & Hperm & Hc & Hlen & Hhd & Herr & Hbuf) Hw.
  simpl in *.
  unfold worker_wake, sem_wait in Hw. simpl in Hw.
  destruct (semDataReadyForTreatment s) as [|n] eqn:En; [discriminate|].
  unfold List_head in Hw. simpl in Hw.
  rewrite (repr_head _ _ _ HT) in Hw.
  destruct q as [|t q']; [simpl in Hlen; lia|].
  simpl in Hw. injection Hw as <-.
  split.
  - exists c, (t :: q'). simpl.
    split; [exact HR|]. split; [exact HT|]. split; [exact Hperm|].
    split; [exact Hc|]. split; [simpl in Hlen; lia|].
    split; [intros t0 Ht0; injection Ht0 as <-; reflexivity|].
    split; [exact Herr|exact Hbuf].
  - exists t, q'. split; [|reflexivity].
    apply treatment_queue_repr; assumption.
Qed.

Lemma Inv_treat : forall s t run,
  Inv (s, Treating t) -> Inv (worker_treat t run s).
Proof.
  intros s t run (c & q & HR & HT & Hperm & Hc & Hlen & Hhd & Herr & Hbuf).
  simpl in *.
  specialize (Hhd t eq_refl).
  destruct q as [|t' q']; [discriminate|]. injection Hhd as ->.
  destruct (classified_frame t run s) as (E1 & E2 & E3 & E4 & E5 & _ & _).
  destruct (Z.eq_dec (res run) 0) as [Hres|Hres].
  - rewrite (worker_treat_success _ _ _ Hres).
    assert (HR' : repr (txns (classified t run s)) (i2sReadList (classified t run s)) c)
      by (rewrite E1, E2; exact HR).
    assert (HT' : repr (txns (classified t run s)) (treatmentList (classified t run s)) (t :: q'))
      by (rewrite E1, E3; exact HT).
    destruct (List_remove_treatment_head _ _ _ _ HT' HR' (partition_disjoint _ _ _ Hperm))
      as (HT2 & HR2 & Es & Ee & _ & _ & _ & _ & Hb).
    exists c, q'. simpl.
    split; [exact HR2|]. split; [exact HT2|].
    split.
    { eapply Permutation_trans; [|exact Hperm].
      apply Permutation_app_head. rewrite app_nil_r.
      apply Permutation_sym. apply (Permutation_cons_append q' t). }
    split; [exact Hc|].
    split; [rewrite Es, E4; simpl in Hlen; lia|].
    split; [intros t0 Ht0; discriminate|].
    split; [rewrite Ee, E5; exact Herr|].
    intros w. destruct (Hb w) as (-> & ->). rewrite E1. apply Hbuf.
  - rewrite (worker_treat_failure _ _ _ Hres).
    exists c, (t :: q'). simpl.
    rewrite E1, E2, E3, E4, E5.
    split; [exact HR|]. split; [exact HT|]. split; [exact Hperm|].
    split; [exact Hc|]. split; [exact Hlen|].
    split; [intros t0 Ht0; discriminate|].
    split; [exact Herr|exact Hbuf].
Qed.

Lemma Inv_return : forall s t,
  Inv (s, Returning t) -> Inv (worker_return t s).
Proof.
  intros s t (c & q & HR & HT & Hperm & Hc & Hlen & Hhd & Herr & Hbuf).
  simpl in *.
  assert (Hnd : NoDup (c ++ q ++ [t])) by (apply partition_NoDup; assumption).
  assert (Htc : ~ In t c).
  { intros Hin. apply (NoDup_app_disjoint c (q ++ [t]) t Hnd Hin).
    apply in_or_app; right; left; reflexivity. }
  assert (Htq : ~ In t q).
  { apply NoDup_app_remove_l in Hnd. apply NoDup_snoc_inv in Hnd. tauto. }
  destruct (List_put_capture_tail s t q c HR HT Htc Htq (partition_disjoint _ _ _ Hperm))
    as (HR' & HT' & Es & Ee & _ & _ & _ & _ & Hb).
  exists (c ++ [t]), q. unfold worker_return. cbn [fst snd in_flight busy].
  split; [exact HR'|]. split; [exact HT'|].
  split.
  { eapply Permutation_trans; [|exact Hperm].
    rewrite app_nil_r, <- app_assoc. apply Permutation_app_head.
    apply Permutation_app_comm. }
  split; [destruct c; discriminate|].
  split; [rewrite Es; simpl in Hlen; lia|].
  split; [intros t0 Ht0; discriminate|].
  split; [rewrite Ee; exact Herr|].
  intros w. destruct (Hb w) as (-> & ->). apply Hbuf.
Qed.

Lemma Inv_step : forall sys sys', Inv sys -> step sys sys' -> Inv sys'.
Proof.
  intros sys sys' HI Hstep. destruct Hstep.
  - apply Inv_read; assumption.
  - exact HI.
  - eapply Inv_wake; eassumption.
  - unfold worker_wait_failed.
    destruct HI as (c & q & HR & HT & Hperm & Hc & Hlen & Hhd & Herr & Hbuf).
    exists c, q. simpl in *.
    split; [exact HR|]. split; [exact HT|]. split; [exact Hperm|].
    split; [exact Hc|]. split; [exact Hlen|].
    split; [intros t0 Ht0; discriminate|].
    split; [exact Herr|exact Hbuf].
  - apply Inv_treat; assumption.
  - apply Inv_return; assumption.
Qed.

Lemma reachable_Inv : forall sys, reachable sys -> Inv sys.
Proof.
  intros sys H; induction H.
  - apply Inv_initial.
  - eapply Inv_step; eassumption.
Qed.

Lemma queues_partition_bounds : forall s pc,
  Inv (s, pc) ->
  NoDup (treatment_queue s) /\ (length (treatment_queue s) <= NUMBUFS - 1)%nat.
Proof.
  intros s pc (c & q & HR & HT & Hperm & Hc & _).
  cbn [fst snd] in *.
  rewrite (treatment_queue_repr _ _ HT).
  split; [destruct HT; assumption|].
  apply Permutation_length in Hperm. rewrite !length_app in Hperm.
  simpl in Hperm. destruct c; [contradiction|]. simpl in *. lia.
Qed.

(** ** The output lines *)

Lemma DIO_reg_set : forall n v mask,
  0 <= n < 32 -> DIO n (reg_set v mask) = DIO n v || Z.testbit mask n.
Proof.
  intros n v mask Hn. unfold DIO, reg_set, u32.
  rewrite Z.mod_pow2_bits_low by lia. apply Z.lor_spec.
Qed.

Lemma DIO_reg_clear : forall n v mask,
  0 <= n < 32 -> DIO n (reg_clear v mask) = DIO n v && negb (Z.testbit mask n).
Proof.
  intros n v mask Hn. unfold DIO, reg_clear, u32.
  rewrite Z.mod_pow2_bits_low by lia.
  rewrite Z.land_spec, Z.lnot_spec by lia. reflexivity.
Qed.

Lemma lines_set7_clear6 : forall v,
  (DIO 7 (reg_clear (reg_set v (Z.shiftl 1 7)) (Z.shiftl 1 6)),
   DIO 6 (reg_clear (reg_set v (Z.shiftl 1 7)) (Z.shiftl 1 6))) = (true, false).
Proof.
  intros v.
  rewrite !DIO_reg_clear, !DIO_reg_set by lia.
  change (Z.testbit (Z.shiftl 1 7) 7) with true.
  change (Z.testbit (Z.shiftl 1 6) 7) with false.
  change (Z.testbit (Z.shiftl 1 6) 6) with true.
  rewrite orb_true_r, andb_false_r. reflexivity.
Qed.

Lemma lines_clear7_set6 : forall v,
  (DIO 7 (reg_set (reg_clear v (Z.shiftl 1 7)) (Z.shiftl 1 6)),
   DIO 6 (reg_set (reg_clear v (Z.shiftl 1 7)) (Z.shiftl 1 6))) = (false, true).
Proof.
  intros v.
  rewrite !DIO_reg_set, !DIO_reg_clear by lia.
  change (Z.testbit (Z.shiftl 1 7) 7) with true.
  change (Z.testbit (Z.shiftl 1 6) 7) with false.
  change (Z.testbit (Z.shiftl 1 6) 6) with true.
  rewrite orb_true_r, andb_false_r. reflexivity.
Qed.

Lemma lines_set6_clear7 : forall v,
  (DIO 7 (reg_clear (reg_set v (Z.shiftl 1 6)) (Z.shiftl 1 7)),
   DIO 6 (reg_clear (reg_set v (Z.shiftl 1 6)) (Z.shiftl 1 7))) = (false, true).
Proof.
  intros v.
  rewrite !DIO_reg_clear, !DIO_reg_set by lia.
  change (Z.testbit (Z.shiftl 1 7) 7) with true.
  change (Z.testbit (Z.shiftl 1 6) 6) with true.
  change (Z.testbit (Z.shiftl 1 7) 6) with false.
  rewrite orb_true_r, andb_false_r. reflexivity.
Qed.

(** C1: the actuation decision.  For every classification result and
    every state, the code takes the branch the spec's decision names, and
    only that one: the console gains exactly the one line of that branch;
    GO leaves the lines (DIO7, DIO6) at (1, 0) and STOP at (0, 1) whatever
    they were before, NOISE leaves the output register as it was; the
    branch depends on the result alone, through the two strict comparisons
    with 0.50; and a GO confidence of exactly 0.50 is not GO. *)
Theorem actuation_decision : forall (r : ei_impulse_result_t) (s : State),
  console (drive_outputs r s) = console s ++ [actuation_label (select_actuation r)] /\
  match select_actuation r with
  | GO => lines (drive_outputs r s) = (true, false)
  | STOP => lines (drive_outputs r s) = (false, true)
  | NOISE => DOUT_Control (drive_outputs r s) = DOUT_Control s /\
             lines (drive_outputs r s) = lines s
  end /\
  (select_actuation r = GO <->
     PrimFloat.ltb 0.5 (classification_value r GO_LABEL_INDEX) = true) /\
  (select_actuation r = STOP <->
     PrimFloat.ltb 0.5 (classification_value r GO_LABEL_INDEX) = false /\
     PrimFloat.ltb 0.5 (classification_value r STOP_LABEL_INDEX) = true) /\
  (select_actuation r = NOISE <->
     PrimFloat.ltb 0.5 (classification_value r GO_LABEL_INDEX) = false /\
     PrimFloat.ltb 0.5 (classification_value r STOP_LABEL_INDEX) = false) /\
  (forall noise stop,
     select_actuation (mkResult [0.5%float; noise; stop]) <> GO).
Proof.
  intros r s. unfold drive_outputs, select_actuation, lines.
  destruct (PrimFloat.ltb 0.5 (classification_value r GO_LABEL_INDEX)) eqn:Ego;
    [|destruct (PrimFloat.ltb 0.5 (classification_value r STOP_LABEL_INDEX)) eqn:Estop];
    cbn [console ei_printf set_DOUT_Control DOUT_Control actuation_label].
  - split; [reflexivity|]. split; [apply lines_set7_clear6|].
    repeat split; intros; try discriminate; try tauto;
      try (destruct H; discriminate).
    unfold classification_value, GO_LABEL_INDEX; simpl.
    change (PrimFloat.ltb 0.5 0.5) with false. destruct (PrimFloat.ltb 0.5 stop); discriminate.
  - split; [reflexivity|]. split; [apply lines_clear7_set6|].
    repeat split; intros; try discriminate; try tauto;
      try (destruct H; discriminate).
    unfold classification_value, GO_LABEL_INDEX; simpl.
    change (PrimFloat.ltb 0.5 0.5) with false. destruct (PrimFloat.ltb 0.5 stop); discriminate.
  - split; [reflexivity|]. split; [split; reflexivity|].
    repeat split; intros; try discriminate; try tauto;
      try (destruct H; discriminate).
    unfold classification_value, GO_LABEL_INDEX; simpl.
    change (PrimFloat.ltb 0.5 0.5) with false. destruct (PrimFloat.ltb 0.5 stop); discriminate.
Qed.

(** The decision on sample results: a clear GO, a clear STOP, neither
    above the threshold, and the GO confidence exactly on it. *)
Example actuation_decision_examples :
  select_actuation (mkResult [0.625; 0.25; 0.125]%float) = GO /\
  select_actuation (mkResult [0.375; 0.125; 0.75]%float) = STOP /\
  select_actuation (mkResult [0.375; 0.25; 0.375]%float) = NOISE /\
  select_actuation (mkResult [0.5; 0; 0.5]%float) = NOISE /\
  select_actuation (mkResult [0.5; 0; 0.75]%float) = STOP /\
  lines (drive_outputs (mkResult [0.625; 0.25; 0.125]%float) st_initial) = (true, false) /\
  lines (drive_outputs (mkResult [0.375; 0.125; 0.75]%float)
           (drive_outputs (mkResult [0.625; 0.25; 0.125]%float) st_initial)) = (false, true) /\
  lines (drive_outputs (mkResult [0.375; 0.25; 0.375]%float)
           (drive_outputs (mkResult [0.625; 0.25; 0.125]%float) st_initial)) = (true, false).
Proof. vm_compute. repeat split; reflexivity. Qed.

(** C10: the lines before the first cycle.  Whatever the registers held at
    boot, when the worker reaches its loop DIO6 and DIO7 are enabled as
    outputs, the lines (DIO7, DIO6) read (0, 1), the STOP pattern, the
    worker is about to wait for its first signal and no signal is
    pending. *)
Theorem initial_lines_are_STOP : forall boot : State,
  DIO 6 (DOE (fst (initial boot))) = true /\
  DIO 7 (DOE (fst (initial boot))) = true /\
  lines (fst (initial boot)) = (false, true) /\
  snd (initial boot) = AtWait /\
  semDataReadyForTreatment (fst (initial boot)) = 0%nat /\
  console (fst (initial boot)) = console boot.
Proof.
  intros boot.
  assert (EDOE : DOE (fst (initial boot))
                 = reg_set (DOE boot) (Z.lor (Z.shiftl 1 7) (Z.shiftl 1 6)))
    by reflexivity.
  assert (EDOUT : DOUT_Control (fst (initial boot))
                  = reg_clear (reg_set (DOUT_Control boot) (Z.shiftl 1 6)) (Z.shiftl 1 7))
    by reflexivity.
  unfold lines. rewrite EDOE, EDOUT.
  split; [rewrite DIO_reg_set by lia; apply orb_true_r|].
  split; [rewrite DIO_reg_set by lia; apply orb_true_r|].
  split; [apply lines_set6_clear7|].
  repeat split; reflexivity.
Qed.

(** ** The concrete run is a run of the system *)

Lemma reachable_eq : forall sys sys', reachable sys -> sys = sys' -> reachable sys'.
Proof. intros sys sys' H <-. exact H. Qed.

Lemma reachable_st_initial : reachable (st_initial, AtWait).
Proof. exact (reach_initial boot_example). Qed.

Lemma reachable_st_first_completion : reachable (st_first_completion, AtWait).
Proof.
  eapply reach_step; [apply reachable_st_initial|].
  unfold st_first_completion. apply step_read.
  vm_compute. auto.
Qed.

Lemma reachable_st_busy : reachable (st_busy, Treating Txn1).
Proof.
  eapply reach_step; [apply reachable_st_first_completion|].
  apply step_wake. vm_compute. reflexivity.
Qed.

Lemma reachable_st_busy_second_completion :
  reachable (st_busy_second_completion, Treating Txn1).
Proof.
  eapply reach_step; [apply reachable_st_busy|].
  unfold st_busy_second_completion. apply step_read.
  vm_compute. auto.
Qed.

Lemma reachable_st_returning : reachable (st_returning, Returning Txn1).
Proof.
  eapply reachable_eq.
  - eapply reach_step; [apply reachable_st_busy_second_completion|].
    apply (step_treat st_busy_second_completion Txn1 ok_run).
  - vm_compute. reflexivity.
Qed.

(** ** The claims about the queues *)

(** C2: the queues partition the transactions.  In every reachable state
    neither queue holds a descriptor twice, no descriptor is in both, and
    the treatment queue holds at most NUMBUFS - 1 = 2 descriptors; and
    whenever the worker is not between its [List_remove] and its
    [List_put], every descriptor is in one of the two queues and the two
    lengths add up to NUMBUFS = 3. *)
Theorem queues_partition_transactions : forall sys : Sys,
  reachable sys ->
  NoDup (capture_queue (fst sys)) /\
  NoDup (treatment_queue (fst sys)) /\
  (forall t, In t (capture_queue (fst sys)) -> ~ In t (treatment_queue (fst sys))) /\
  (length (treatment_queue (fst sys)) <= NUMBUFS - 1)%nat /\
  (in_flight (snd sys) = [] ->
     (forall t, In t (capture_queue (fst sys)) \/ In t (treatment_queue (fst sys))) /\
     Permutation (capture_queue (fst sys) ++ treatment_queue (fst sys)) i2sTransactionList /\
     (length (capture_queue (fst sys)) + length (treatment_queue (fst sys)) = NUMBUFS)%nat).
Proof.
  intros sys Hr. apply reachable_Inv in Hr.
  destruct Hr as (c & q & HR & HT & Hperm & Hc & Hlen & Hhd & Herr & Hbuf).
  rewrite (capture_queue_repr _ _ HR), (treatment_queue_repr _ _ HT).
  split; [destruct HR; assumption|].
  split; [destruct HT; assumption|].
  split; [exact (partition_disjoint _ _ _ Hperm)|].
  split.
  { apply Permutation_length in Hperm. rewrite !length_app in Hperm.
    simpl in Hperm. destruct c; [contradiction|]. simpl in *. lia. }
  intros Hf. rewrite Hf, app_nil_r in Hperm.
  split.
  { intros t. apply in_app_or.
    eapply Permutation_in; [apply Permutation_sym; exact Hperm|apply all_TxnPtr]. }
  split; [exact Hperm|].
  apply Permutation_length in Hperm. rewrite length_app in Hperm. exact Hperm.
Qed.

Lemma queues_partition_transactions_witness :
  NoDup (capture_queue st_busy_second_completion) /\
  NoDup (treatment_queue st_busy_second_completion) /\
  (forall t, In t (capture_queue st_busy_second_completion) ->
             ~ In t (treatment_queue st_busy_second_completion)) /\
  (length (treatment_queue st_busy_second_completion) <= NUMBUFS - 1)%nat /\
  (in_flight (Treating Txn1) = [] ->
     (forall t, In t (capture_queue st_busy_second_completion) \/
                In t (treatment_queue st_busy_second_completion)) /\
     Permutation (capture_queue st_busy_second_completion ++
                  treatment_queue st_busy_second_completion) i2sTransactionList /\
     (length (capture_queue st_busy_second_completion) +
      length (treatment_queue st_busy_second_completion) = NUMBUFS)%nat).
Proof.
  apply (queues_partition_transactions (st_busy_second_completion, Treating Txn1)).
  apply reachable_st_busy_second_completion.
Defined.

(** C4: the read-completion handler.  In a reachable state, when the new
    active transaction [t] is the head of the capture queue, so has no
    predecessor, the handler changes nothing at all and posts no signal;
    when [p] stands just before [t] in the capture queue the handler takes
    exactly [p] out of the capture queue, appends it at the tail of the
    treatment queue and raises the worker's semaphore by exactly one, and
    touches neither the outputs nor the console.  A member of the capture
    queue is in one of the two cases. *)
Theorem read_callback_moves_predecessor : forall (s : State) (pc : WorkerPc) (t : TxnPtr),
  reachable (s, pc) ->
  (forall c', capture_queue s = t :: c' ->
     List_prev t s = None /\ I2SreadCallback t s = s) /\
  (forall c1 p c2, capture_queue s = c1 ++ p :: t :: c2 ->
     List_prev t s = Some p /\
     capture_queue (I2SreadCallback t s) = c1 ++ t :: c2 /\
     treatment_queue (I2SreadCallback t s) = treatment_queue s ++ [p] /\
     semDataReadyForTreatment (I2SreadCallback t s) = S (semDataReadyForTreatment s) /\
     semErrorCallback (I2SreadCallback t s) = semErrorCallback s /\
     DOUT_Control (I2SreadCallback t s) = DOUT_Control s /\
     console (I2SreadCallback t s) = console s) /\
  (In t (capture_queue s) ->
     (exists c', capture_queue s = t :: c') \/
     (exists c1 p c2, capture_queue s = c1 ++ p :: t :: c2)).
Proof.
  intros s pc t Hr. apply reachable_Inv in Hr.
  destruct Hr as (c & q & HR & HT & Hperm & Hc & Hlen & Hhd & Herr & Hbuf).
  simpl in HR, HT, Hperm.
  rewrite (capture_queue_repr _ _ HR), (treatment_queue_repr _ _ HT).
  split; [|split].
  - intros c' ->. split.
    + unfold List_prev. exact (repr_prev_first _ _ _ _ HR).
    + exact (I2SreadCallback_head _ _ _ HR).
  - intros c1 p c2 ->.
    destruct (I2SreadCallback_move s c1 p t c2 q HR HT (partition_disjoint _ _ _ Hperm))
      as (HR' & HT' & Es & Ee & _ & _ & Ed & Ec & _).
    split; [unfold List_prev; exact (repr_prev_next _ _ _ _ _ _ HR)|].
    split; [exact (capture_queue_repr _ _ HR')|].
    split; [exact (treatment_queue_repr _ _ HT')|].
    auto.
  - apply in_head_or_pred.
Qed.

Lemma read_callback_moves_predecessor_witness :
  capture_queue (I2SreadCallback Txn3 st_busy) = [Txn3] /\
  treatment_queue (I2SreadCallback Txn3 st_busy) = [Txn1; Txn2] /\
  semDataReadyForTreatment (I2SreadCallback Txn3 st_busy) = 1%nat /\
  I2SreadCallback Txn1 st_initial = st_initial.
Proof.
  destruct (read_callback_moves_predecessor st_busy (Treating Txn1) Txn3
              reachable_st_busy) as (_ & Hmove & _).
  assert (Ec : capture_queue st_busy = [] ++ Txn2 :: Txn3 :: [])
    by (vm_compute; reflexivity).
  assert (Eq : treatment_queue st_busy ++ [Txn2] = [Txn1; Txn2])
    by (vm_compute; reflexivity).
  assert (Es : S (semDataReadyForTreatment st_busy) = 1%nat)
    by (vm_compute; reflexivity).
  destruct (Hmove [] Txn2 [] Ec) as (_ & Hc & Hq & Hs & _).
  rewrite Eq in Hq. rewrite Es in Hs.
  destruct (read_callback_moves_predecessor st_initial AtWait Txn1
              reachable_st_initial) as (Hhead & _ & _).
  assert (Ei : capture_queue st_initial = [Txn1; Txn2; Txn3])
    by (vm_compute; reflexivity).
  destruct (Hhead [Txn2; Txn3] Ei) as (_ & Hsame).
  split; [exact Hc|]. split; [exact Hq|]. split; [exact Hs|exact Hsame].
Defined.

(** The handler trusts its argument.  Handed a descriptor that sits in the
    treatment queue, here [Txn2] behind [Txn1], it takes [Txn1] for the
    finished transaction, rewires the capture queue's header around it and
    appends it to the treatment queue: [Txn1] is then in both queues,
    [Txn3] in neither, and a signal has been posted for a buffer that was
    already counted.  The driver never does this: the descriptor it hands
    over is the active capture target, a member of the capture queue. *)
Example read_callback_outside_capture_queue :
  capture_queue st_busy_second_completion = [Txn3] /\
  treatment_queue st_busy_second_completion = [Txn1; Txn2] /\
  capture_queue (I2SreadCallback Txn2 st_busy_second_completion) = [Txn2; Txn1] /\
  treatment_queue (I2SreadCallback Txn2 st_busy_second_completion) = [Txn1] /\
  semDataReadyForTreatment (I2SreadCallback Txn2 st_busy_second_completion) = 2%nat.
Proof. vm_compute. repeat split; reflexivity. Qed.

(** ** The worker's steps, in terms of the two queues *)

Lemma treat_success_queues : forall s t run,
  Inv (s, Treating t) -> res run = 0 ->
  capture_queue (List_remove ref_treatmentList t (classified t run s)) = capture_queue s /\
  treatment_queue s =
    t :: treatment_queue (List_remove ref_treatmentList t (classified t run s)) /\
  semDataReadyForTreatment (List_remove ref_treatmentList t (classified t run s))
    = semDataReadyForTreatment s /\
  features (List_remove ref_treatmentList t (classified t run s))
    = bufPtr (deref (txns s) t).
Proof.
  intros s t run (c & q & HR & HT & Hperm & Hc & Hlen & Hhd & Herr & Hbuf) Hres.
  simpl in *.
  specialize (Hhd t eq_refl).
  destruct q as [|t' q']; [discriminate|]. injection Hhd as ->.
  destruct (classified_frame t run s) as (E1 & E2 & E3 & E4 & E5 & E6 & _).
  assert (HR' : repr (txns (classified t run s)) (i2sReadList (classified t run s)) c)
    by (rewrite E1, E2; exact HR).
  assert (HT' : repr (txns (classified t run s)) (treatmentList (classified t run s)) (t :: q'))
    by (rewrite E1, E3; exact HT).
  destruct (List_remove_treatment_head _ _ _ _ HT' HR' (partition_disjoint _ _ _ Hperm))
    as (HT2 & HR2 & Es & _ & Ef & _).
  rewrite (capture_queue_repr _ _ HR2), (treatment_queue_repr _ _ HT2).
  rewrite (capture_queue_repr _ _ HR), (treatment_queue_repr _ _ HT).
  rewrite Es, Ef, E4, E6. auto.
Qed.

Lemma return_queues : forall s t,
  Inv (s, Returning t) ->
  capture_queue (List_put ref_i2sReadList t s) = capture_queue s ++ [t] /\
  treatment_queue (List_put ref_i2sReadList t s) = treatment_queue s /\
  ~ In t (treatment_queue s) /\
  semDataReadyForTreatment (List_put ref_i2sReadList t s) = semDataReadyForTreatment s /\
  features (List_put ref_i2sReadList t s) = features s /\
  DOUT_Control (List_put ref_i2sReadList t s) = DOUT_Control s /\
  console (List_put ref_i2sReadList t s) = console s.
Proof.
  intros s t (c & q & HR & HT & Hperm & Hc & Hlen & Hhd & Herr & Hbuf).
  simpl in *.
  assert (Hnd : NoDup (c ++ q ++ [t])) by (apply partition_NoDup; assumption).
  assert (Htc : ~ In t c).
  { intros Hin. apply (NoDup_app_disjoint c (q ++ [t]) t Hnd Hin).
    apply in_or_app; right; left; reflexivity. }
  assert (Htq : ~ In t q).
  { apply NoDup_app_remove_l in Hnd. apply NoDup_snoc_inv in Hnd. tauto. }
  destruct (List_put_capture_tail s t q c HR HT Htc Htq (partition_disjoint _ _ _ Hperm))
    as (HR' & HT' & Es & _ & Ef & _ & Ed & Ec & _).
  rewrite (capture_queue_repr _ _ HR'), (treatment_queue_repr _ _ HT').
  rewrite (capture_queue_repr _ _ HR), (treatment_queue_repr _ _ HT).
  auto 10.
Qed.

Lemma Inv_buffers : forall s pc t,
  Inv (s, pc) ->
  bufPtr (deref (txns s) t) = Some (i2sBuf_of t) /\
  bufSize (deref (txns s) t) = BUFSIZE.
Proof.
  intros s pc t (c & q & _ & _ & _ & _ & _ & _ & _ & Hbuf). apply Hbuf.
Qed.

Lemma treatment_queue_nil_head : forall s,
  treatment_queue s = [] -> head (treatmentList s) = None.
Proof.
  intros s H. unfold treatment_queue, queue in H. simpl in H.
  destruct (head (treatmentList s)); [discriminate|reflexivity].
Qed.

(** ** The claims about errors *)

(** C3: the error callback.  In every reachable state the error callback
    returns without touching anything: it posts no signal, so the count of
    [semErrorCallback] is still zero after it, [ei_main] is still blocked
    in its wait, and the worker goes on from where it stood. *)
Theorem error_callback_never_releases_ei_main : forall sys : Sys,
  reachable sys ->
  I2SerrCallback (fst sys) = fst sys /\
  semErrorCallback (I2SerrCallback (fst sys)) = 0%nat /\
  ei_main_wait (I2SerrCallback (fst sys)) = None /\
  reachable (I2SerrCallback (fst sys), snd sys).
Proof.
  intros [s pc] Hr. simpl.
  assert (He : semErrorCallback s = 0%nat).
  { apply reachable_Inv in Hr.
    destruct Hr as (c & q & _ & _ & _ & _ & _ & _ & Herr & _). exact Herr. }
  split; [reflexivity|]. split; [exact He|].
  split.
  - unfold ei_main_wait, sem_wait, I2SerrCallback. simpl. rewrite He. reflexivity.
  - eapply reach_step; [exact Hr|]. apply step_error.
Qed.

Lemma error_callback_never_releases_ei_main_witness :
  I2SerrCallback st_busy = st_busy /\
  semErrorCallback (I2SerrCallback st_busy) = 0%nat /\
  ei_main_wait (I2SerrCallback st_busy) = None /\
  reachable (I2SerrCallback st_busy, Treating Txn1).
Proof.
  exact (error_callback_never_releases_ei_main (st_busy, Treating Txn1) reachable_st_busy).
Defined.

(** C5: a failing classifier.  When the worker, in a reachable state, is
    treating [t] and [run_classifier] hands back a non-zero status, the
    worker leaves [controlThread] with the value 1 and makes no further
    move; the descriptors and both queue headers are exactly as before, so
    [t] is still the head of the treatment queue, the two queues are
    disjoint and together hold all three descriptors, and the state left
    behind is again a reachable one. *)
Theorem classifier_failure_stops_worker : forall (s : State) (t : TxnPtr) (run : classifier_run),
  reachable (s, Treating t) ->
  res run <> 0 ->
  snd (worker_treat t run s) = Exited 1 /\
  (forall sys', ~ worker_step (worker_treat t run s) sys') /\
  txns (fst (worker_treat t run s)) = txns s /\
  i2sReadList (fst (worker_treat t run s)) = i2sReadList s /\
  treatmentList (fst (worker_treat t run s)) = treatmentList s /\
  semDataReadyForTreatment (fst (worker_treat t run s)) = semDataReadyForTreatment s /\
  hd_error (treatment_queue (fst (worker_treat t run s))) = Some t /\
  (forall w, In w (capture_queue (fst (worker_treat t run s))) ->
             ~ In w (treatment_queue (fst (worker_treat t run s)))) /\
  Permutation (capture_queue (fst (worker_treat t run s)) ++
               treatment_queue (fst (worker_treat t run s))) i2sTransactionList /\
  console (fst (worker_treat t run s))
    = console (classified t run s) ++ [("run_classifier fail." ++ CRLF)%string] /\
  reachable (worker_treat t run s).
Proof.
  intros s t run Hr Hres.
  assert (Hr' : reachable (worker_treat t run s)).
  { eapply reach_step; [exact Hr|]. apply step_treat. }
  assert (HI' := reachable_Inv _ Hr').
  rewrite (worker_treat_failure _ _ _ Hres) in *.
  cbn [fst snd].
  destruct HI' as (c & q & HR & HT & Hperm & Hc & Hlen & Hhd & Herr & Hbuf).
  cbn [fst snd in_flight busy] in *.
  destruct (classified_frame t run s) as (E1 & E2 & E3 & E4 & E5 & _ & _).
  split; [reflexivity|].
  split; [intros sys' Hs; inversion Hs|].
  split; [exact E1|]. split; [exact E2|]. split; [exact E3|]. split; [exact E4|].
  rewrite (capture_queue_repr _ _ HR), (treatment_queue_repr _ _ HT).
  rewrite app_nil_r in Hperm.
  assert (Hq : hd_error q = Some t).
  { apply reachable_Inv in Hr.
    destruct Hr as (c0 & q0 & HR0 & HT0 & _ & _ & _ & Hhd0 & _).
    cbn [fst snd] in *.
    assert (Eq : treatment_queue s = q0) by (apply treatment_queue_repr; exact HT0).
    assert (Eq' : treatment_queue s = q).
    { rewrite <- (treatment_queue_repr _ _ HT).
      unfold treatment_queue, queue. cbn [get_list ei_printf txns treatmentList].
      rewrite E1, E3. reflexivity. }
    rewrite <- Eq', Eq. apply Hhd0. reflexivity. }
  split; [exact Hq|].
  split; [exact (partition_disjoint c q [] ltac:(rewrite app_nil_r; exact Hperm))|].
  split; [exact Hperm|].
  split; [reflexivity|exact Hr'].
Qed.

Lemma classifier_failure_stops_worker_witness :
  snd (worker_treat Txn1 failed_run st_busy) = Exited 1 /\
  (forall sys', ~ worker_step (worker_treat Txn1 failed_run st_busy) sys') /\
  hd_error (treatment_queue (fst (worker_treat Txn1 failed_run st_busy))) = Some Txn1 /\
  Permutation (capture_queue (fst (worker_treat Txn1 failed_run st_busy)) ++
               treatment_queue (fst (worker_treat Txn1 failed_run st_busy)))
              i2sTransactionList /\
  reachable (worker_treat Txn1 failed_run st_busy).
Proof.
  assert (Hres : res failed_run <> 0) by (vm_compute; discriminate).
  destruct (classifier_failure_stops_worker st_busy Txn1 failed_run reachable_st_busy Hres)
    as (Hpc & Hstop & _ & _ & _ & _ & Hhd & _ & Hperm & _ & Hr).
  split; [exact Hpc|]. split; [exact Hstop|]. split; [exact Hhd|].
  split; [exact Hperm|exact Hr].
Defined.

(** C7: the round trip of a transaction.  When the worker, in a reachable
    state, has classified [t] successfully and taken it out of the
    treatment queue, its [List_put] appends that same descriptor at the
    tail of the capture queue and leaves the treatment queue alone; and the
    descriptor, like every descriptor in every reachable state, still names
    the buffer and the size [BUFSIZE] that [I2S_setup] gave it. *)
Theorem returned_transaction_keeps_buffer : forall (s : State) (t : TxnPtr),
  reachable (s, Returning t) ->
  snd (worker_return t s) = AtWait /\
  capture_queue (fst (worker_return t s)) = capture_queue s ++ [t] /\
  treatment_queue (fst (worker_return t s)) = treatment_queue s /\
  ~ In t (treatment_queue (fst (worker_return t s))) /\
  bufPtr (deref (txns (fst (worker_return t s))) t) = Some (i2sBuf_of t) /\
  bufSize (deref (txns (fst (worker_return t s))) t) = BUFSIZE /\
  bufPtr (deref (txns s) t) = Some (i2sBuf_of t) /\
  bufSize (deref (txns s) t) = BUFSIZE /\
  (forall boot,
     bufPtr (deref (txns (fst (initial boot))) t) = Some (i2sBuf_of t) /\
     bufSize (deref (txns (fst (initial boot))) t) = BUFSIZE).
Proof.
  intros s t Hr.
  assert (Hr' : reachable (worker_return t s)).
  { eapply reach_step; [exact Hr|]. apply step_return. }
  assert (HI := reachable_Inv _ Hr).
  assert (HI' := reachable_Inv _ Hr').
  unfold worker_return in *. cbn [fst snd].
  destruct (return_queues s t HI) as (Ec & Et & Hnt & _).
  split; [reflexivity|]. split; [exact Ec|]. split; [exact Et|].
  split; [rewrite Et; exact Hnt|].
  destruct (Inv_buffers _ _ t HI') as (B1 & B2).
  destruct (Inv_buffers _ _ t HI) as (B3 & B4).
  split; [exact B1|]. split; [exact B2|]. split; [exact B3|]. split; [exact B4|].
  intros boot. exact (Inv_buffers _ _ t (Inv_initial boot)).
Qed.

Lemma returned_transaction_keeps_buffer_witness :
  capture_queue (fst (worker_return Txn1 st_returning)) = [Txn3; Txn1] /\
  bufPtr (deref (txns (fst (worker_return Txn1 st_returning))) Txn1) = Some buf1 /\
  bufSize (deref (txns (fst (worker_return Txn1 st_returning))) Txn1) = 11200.
Proof.
  destruct (returned_transaction_keeps_buffer st_returning Txn1 reachable_st_returning)
    as (_ & Hc & _ & _ & Hp & Hs & _).
  assert (E : capture_queue st_returning ++ [Txn1] = [Txn3; Txn1])
    by (vm_compute; reflexivity).
  rewrite E in Hc.
  split; [exact Hc|]. split; [exact Hp|exact Hs].
Defined.

(** C8, as the code has it: a wake with an empty treatment queue.  When a
    signal is pending and the treatment queue is empty, the wake consumes
    the signal and the worker is back at its wait; nothing else changes:
    no classifier call, outputs, queues and descriptors as before, and
    the console as before, nothing being logged. *)
Theorem spurious_wake_changes_nothing : forall (s : State) (n : nat),
  semDataReadyForTreatment s = S n ->
  treatment_queue s = [] ->
  worker_wake s = Some (set_semDataReadyForTreatment n s, AtWait) /\
  (forall run,
     controlThread_iteration run s = Some (set_semDataReadyForTreatment n s, AtWait)) /\
  console (set_semDataReadyForTreatment n s) = console s /\
  DOUT_Control (set_semDataReadyForTreatment n s) = DOUT_Control s /\
  features (set_semDataReadyForTreatment n s) = features s /\
  txns (set_semDataReadyForTreatment n s) = txns s /\
  i2sReadList (set_semDataReadyForTreatment n s) = i2sReadList s /\
  treatmentList (set_semDataReadyForTreatment n s) = treatmentList s.
Proof.
  intros s n Hs Hq.
  assert (Hw : worker_wake s = Some (set_semDataReadyForTreatment n s, AtWait)).
  { unfold worker_wake, sem_wait. cbn [sem_value sem_init]. rewrite Hs.
    unfold List_head. cbn [get_list set_semDataReadyForTreatment treatmentList].
    rewrite (treatment_queue_nil_head _ Hq). reflexivity. }
  split; [exact Hw|].
  split; [intros run; unfold controlThread_iteration; rewrite Hw; reflexivity|].
  repeat split; reflexivity.
Qed.

Lemma spurious_wake_changes_nothing_witness :
  worker_wake st_spurious = Some (set_semDataReadyForTreatment 0 st_spurious, AtWait) /\
  console (set_semDataReadyForTreatment 0 st_spurious) = console st_spurious.
Proof.
  assert (Hs : semDataReadyForTreatment st_spurious = 1%nat) by (vm_compute; reflexivity).
  assert (Hq : treatment_queue st_spurious = []) by (vm_compute; reflexivity).
  destruct (spurious_wake_changes_nothing st_spurious 0 Hs Hq) as (Hw & _ & Hc & _).
  split; [exact Hw|exact Hc].
Defined.

(** C8, as the claim has it, fails: a wake that finds the treatment queue
    empty logs nothing.  Here a signal is pending, the treatment queue is
    empty, the worker wakes and goes back to its wait, and the console
    after the wake is the console before it. *)
Lemma spurious_wake_is_not_logged :
  semDataReadyForTreatment st_spurious = 1%nat /\
  treatment_queue st_spurious = [] /\
  worker_wake st_spurious = Some (st_initial, AtWait) /\
  console st_initial = console st_spurious.
Proof. vm_compute. repeat split; reflexivity. Qed.

(** ** The worker running alone *)

Lemma worker_wake_pending : forall s n,
  Inv (s, AtWait) ->
  semDataReadyForTreatment s = S n ->
  exists t q',
    treatment_queue s = t :: q' /\
    worker_wake s = Some (set_semDataReadyForTreatment n s, Treating t).
Proof.
  intros s n (c & q & HR & HT & Hperm & Hc & Hlen & Hhd & Herr & Hbuf) Hs.
  cbn [fst snd busy] in *.
  destruct q as [|t q']; [simpl in Hlen; lia|].
  exists t, q'. split; [apply treatment_queue_repr; exact HT|].
  unfold worker_wake, sem_wait. cbn [sem_value sem_init]. rewrite Hs.
  unfold List_head. cbn [get_list set_semDataReadyForTreatment treatmentList].
  rewrite (repr_head _ _ _ HT). reflexivity.
Qed.

Lemma worker_wake_blocked : forall s,
  semDataReadyForTreatment s = 0%nat -> worker_wake s = None.
Proof.
  intros s Hs. unfold worker_wake, sem_wait. cbn [sem_value]. rewrite Hs. reflexivity.
Qed.

Lemma treatment_queue_set_sem : forall n s,
  treatment_queue (set_semDataReadyForTreatment n s) = treatment_queue s /\
  capture_queue (set_semDataReadyForTreatment n s) = capture_queue s.
Proof. intros; split; reflexivity. Qed.

(** One whole cycle on the head of the treatment queue. *)
Lemma worker_cycle : forall s t run,
  Inv (s, Treating t) -> res run = 0 ->
  Inv (List_put ref_i2sReadList t (List_remove ref_treatmentList t (classified t run s)), AtWait) /\
  treatment_queue s =
    t :: treatment_queue
           (List_put ref_i2sReadList t (List_remove ref_treatmentList t (classified t run s))) /\
  capture_queue
    (List_put ref_i2sReadList t (List_remove ref_treatmentList t (classified t run s)))
    = capture_queue s ++ [t] /\
  semDataReadyForTreatment
    (List_put ref_i2sReadList t (List_remove ref_treatmentList t (classified t run s)))
    = semDataReadyForTreatment s.
Proof.
  intros s t run HI Hres.
  assert (HI2 : Inv (List_remove ref_treatmentList t (classified t run s), Returning t)).
  { rewrite <- (worker_treat_success _ _ _ Hres). apply Inv_treat; exact HI. }
  assert (HI3 := Inv_return _ _ HI2). unfold worker_return in HI3.
  destruct (treat_success_queues s t run HI Hres) as (Ec & Eq & Es & _).
  destruct (return_queues _ t HI2) as (Ec' & Eq' & _ & Es' & _).
  split; [exact HI3|].
  split; [rewrite Eq'; exact Eq|].
  split; [rewrite Ec', Ec; reflexivity|].
  rewrite Es', Es; reflexivity.
Qed.

Lemma controlThread_loop_drains : forall runs s,
  Inv (s, AtWait) ->
  Forall (fun r => res r = 0) runs ->
  length runs = semDataReadyForTreatment s ->
  exists sf,
    controlThread_loop runs s = (treatment_queue s, (sf, AtWait)) /\
    semDataReadyForTreatment sf = 0%nat /\
    treatment_queue sf = [] /\
    capture_queue sf = capture_queue s ++ treatment_queue s.
Proof.
  intros runs; induction runs as [|run runs IH]; intros s HI Hok Hlen.
  - simpl in Hlen.
    assert (Hq : treatment_queue s = []).
    { destruct HI as (c & q & HR & HT & _ & _ & Hl & _).
      cbn [fst snd busy] in *. rewrite (treatment_queue_repr _ _ HT).
      destruct q; [reflexivity|simpl in Hl; lia]. }
    exists s. rewrite Hq, app_nil_r. simpl. auto.
  - simpl in Hlen. symmetry in Hlen.
    destruct (worker_wake_pending s (length runs) HI Hlen) as (t & q' & Hq & Hw).
    assert (HI1 : Inv (set_semDataReadyForTreatment (length runs) s, Treating t)).
    { destruct (Inv_wake s _ HI Hw) as (H & _). exact H. }
    inversion Hok as [|r rs Hres Hok' E]; subst.
    destruct (worker_cycle _ t run HI1 Hres) as (HI3 & Eq & Ec & Es).
    destruct (IH _ HI3 Hok' (eq_sym Es)) as (sf & Hloop & Hsf & Hqf & Hcf).
    exists sf.
    cbn [controlThread_loop]. rewrite Hw.
    rewrite (worker_treat_success _ _ _ Hres).
    unfold worker_return. cbn [fst]. rewrite Hloop.
    destruct (treatment_queue_set_sem (length runs) s) as (Et & Ecs).
    rewrite Et in Eq. rewrite Ecs in Ec.
    split; [rewrite Eq; reflexivity|].
    split; [exact Hsf|]. split; [exact Hqf|].
    rewrite Hcf, Ec, Eq, <- app_assoc. reflexivity.
Qed.

Lemma i2sBuf_of_injective : forall a b, i2sBuf_of a = i2sBuf_of b -> a = b.
Proof. intros [] [] H; try reflexivity; discriminate. Qed.

(** ** The claim about bursts *)

(** C6, as the code has it: pending signals are served in order.  When the
    worker, in a reachable state, is treating [w], the signals pending are
    as many as the descriptors waiting behind [w] in the treatment queue,
    and that is at most NUMBUFS - 2 = 1.  If the classifier succeeds and no
    further completion arrives, the worker finishes [w] and then makes
    exactly one cycle per pending signal: the descriptors treated are the
    treatment queue in its order, all different, with different buffers;
    each goes to the tail of the capture queue; and then the treatment
    queue is empty, no signal is left and the worker is blocked in its
    wait. *)
Theorem pending_signals_are_served_in_order :
  forall (s : State) (w : TxnPtr) (run0 : classifier_run) (runs : list classifier_run),
  reachable (s, Treating w) ->
  res run0 = 0 ->
  Forall (fun r => res r = 0) runs ->
  length runs = semDataReadyForTreatment s ->
  exists treated sf,
    controlThread_loop runs (fst (worker_return w (fst (worker_treat w run0 s))))
      = (treated, (sf, AtWait)) /\
    treatment_queue s = w :: treated /\
    length treated = semDataReadyForTreatment s /\
    NoDup (w :: treated) /\
    NoDup (map (fun t => bufPtr (deref (txns s) t)) (w :: treated)) /\
    semDataReadyForTreatment sf = 0%nat /\
    worker_wake sf = None /\
    treatment_queue sf = [] /\
    capture_queue sf = capture_queue s ++ w :: treated /\
    (semDataReadyForTreatment s <= NUMBUFS - 2)%nat.
Proof.
  intros s w run0 runs Hr Hres0 Hok Hlen.
  assert (HI := reachable_Inv _ Hr).
  destruct (worker_cycle s w run0 HI Hres0) as (HI3 & Eq & Ec & Es).
  rewrite (worker_treat_success _ _ _ Hres0). unfold worker_return. cbn [fst].
  rewrite <- Es in Hlen.
  destruct (controlThread_loop_drains runs _ HI3 Hok Hlen) as (sf & Hloop & Hsf & Hqf & Hcf).
  exists (treatment_queue
            (List_put ref_i2sReadList w
               (List_remove ref_treatmentList w (classified w run0 s)))), sf.
  split; [exact Hloop|]. split; [exact Eq|].
  destruct (queues_partition_bounds s (Treating w) HI) as (Hnd & Hbound).
  assert (Hl : length (treatment_queue s) = S (semDataReadyForTreatment s)).
  { destruct HI as (c & q & HR & HT & _ & _ & Hl & _). cbn [fst snd busy] in *.
    rewrite (treatment_queue_repr _ _ HT). lia. }
  rewrite Eq in Hl, Hnd, Hbound. simpl in Hl, Hbound.
  split; [lia|]. split; [exact Hnd|].
  split.
  { apply NoDup_map_NoDup_ForallPairs; [|exact Hnd].
    intros a b _ _ Hab.
    destruct (Inv_buffers _ _ a HI) as (Ea & _).
    destruct (Inv_buffers _ _ b HI) as (Eb & _).
    rewrite Ea, Eb in Hab. injection Hab as Hab. apply i2sBuf_of_injective; exact Hab. }
  split; [exact Hsf|]. split; [apply worker_wake_blocked; exact Hsf|].
  split; [exact Hqf|].
  split; [rewrite Hcf, Ec, <- app_assoc; reflexivity|].
  unfold NUMBUFS in *. lia.
Qed.

Lemma pending_signals_are_served_in_order_witness :
  exists treated sf,
    controlThread_loop [ok_run]
      (fst (worker_return Txn1 (fst (worker_treat Txn1 ok_run st_busy_second_completion))))
      = (treated, (sf, AtWait)) /\
    treatment_queue st_busy_second_completion = Txn1 :: treated /\
    length treated = semDataReadyForTreatment st_busy_second_completion /\
    NoDup (Txn1 :: treated) /\
    NoDup (map (fun t => bufPtr (deref (txns st_busy_second_completion) t)) (Txn1 :: treated)) /\
    semDataReadyForTreatment sf = 0%nat /\
    worker_wake sf = None /\
    treatment_queue sf = [] /\
    capture_queue sf = capture_queue st_busy_second_completion ++ Txn1 :: treated /\
    (semDataReadyForTreatment st_busy_second_completion <= NUMBUFS - 2)%nat.
Proof.
  apply (pending_signals_are_served_in_order st_busy_second_completion Txn1 ok_run [ok_run]).
  - exact reachable_st_busy_second_completion.
  - reflexivity.
  - repeat constructor.
  - vm_compute. reflexivity.
Defined.

(** C6, as the claim has it, fails for a burst of three.  The first capture
    period ends and the worker starts on the first buffer; the second
    period ends while it is busy, which posts one signal; now the capture
    queue holds the active descriptor alone, so the third completion, with
    the one descriptor the driver can hand over, finds no predecessor and
    changes nothing: one signal is pending, not two.  The worker then makes
    two cycles in all, on [Txn1] and [Txn2], and blocks, although the
    classifier would have succeeded three times. *)
Lemma burst_of_three_yields_two_cycles :
  capture_queue st_busy_second_completion = [Txn3] /\
  treatment_queue st_busy_second_completion = [Txn1; Txn2] /\
  I2SreadCallback Txn3 st_busy_second_completion = st_busy_second_completion /\
  semDataReadyForTreatment (I2SreadCallback Txn3 st_busy_second_completion) = 1%nat /\
  worker_treat Txn1 ok_run (I2SreadCallback Txn3 st_busy_second_completion)
    = (st_returning, Returning Txn1) /\
  fst (controlThread_loop [ok_run; ok_run; ok_run] (fst (worker_return Txn1 st_returning)))
    = [Txn2] /\
  snd (snd (controlThread_loop [ok_run; ok_run; ok_run] (fst (worker_return Txn1 st_returning))))
    = AtWait /\
  worker_wake
    (fst (snd (controlThread_loop [ok_run; ok_run; ok_run] (fst (worker_return Txn1 st_returning)))))
    = None /\
  length (Txn1 :: fst (controlThread_loop [ok_run; ok_run; ok_run]
                         (fst (worker_return Txn1 st_returning)))) = 2%nat.
Proof. vm_compute. repeat split; reflexivity. Qed.

(** ** The semaphore counts the waiting buffers *)

(** X1: in every reachable state the treatment queue holds exactly one
    descriptor per pending signal, plus the one the worker has woken for
    and not yet removed: no signal without a buffer, no buffer without a
    signal. *)
Theorem signals_count_waiting_buffers : forall sys : Sys,
  reachable sys ->
  length (treatment_queue (fst sys))
    = (semDataReadyForTreatment (fst sys) + busy (snd sys))%nat.
Proof.
  intros sys Hr. apply reachable_Inv in Hr.
  destruct Hr as (c & q & _ & HT & _ & _ & Hlen & _).
  rewrite (treatment_queue_repr _ _ HT). exact Hlen.
Qed.

Lemma signals_count_waiting_buffers_witness :
  length (treatment_queue st_busy_second_completion)
    = (semDataReadyForTreatment st_busy_second_completion + 1)%nat.
Proof.
  exact (signals_count_waiting_buffers (st_busy_second_completion, Treating Txn1)
           reachable_st_busy_second_completion).
Defined.

(** ** The classifier adapter *)

Lemma arm_q15_to_float_spec : forall (blockSize : nat) (pSrc : list Z) (pDst : list float),
  (blockSize <= length pSrc)%nat ->
  (blockSize <= length pDst)%nat ->
  arm_q15_to_float pSrc pDst blockSize
    = Some (map q15_to_float (firstn blockSize pSrc) ++ skipn blockSize pDst).
Proof.
  intros n; induction n as [|n IH]; intros pSrc pDst Hs Hd.
  - reflexivity.
  - destruct pSrc as [|x pSrc']; [simpl in Hs; lia|].
    destruct pDst as [|y pDst']; [simpl in Hd; lia|].
    simpl in Hs, Hd. simpl.
    rewrite IH by lia. reflexivity.
Qed.

(** C9: the pull accessor.  With [features] bound to a buffer, and
    [offset + length] within that buffer's samples and [length] within the
    destination, the accessor returns 0; the destination then holds, in its
    first [length] places, the samples [offset .. offset + length - 1] of
    the bound buffer, each converted by [q15_to_float], and is unchanged
    beyond them and of the same size; the program state is as before. The
    result is a function of the bound buffer, the offset, the length and
    the destination. *)
Theorem raw_feature_get_data_converts :
  forall (mem : Samples) (s : State) (b : BufPtr) (offset length : nat) (out_ptr : list float),
  features s = Some b ->
  (offset + length <= List.length (mem b))%nat ->
  (length <= List.length out_ptr)%nat ->
  raw_feature_get_data mem offset length out_ptr s
    = Some (0, map q15_to_float (firstn length (skipn offset (mem b))) ++ skipn length out_ptr, s) /\
  List.length (map q15_to_float (firstn length (skipn offset (mem b))) ++ skipn length out_ptr)
    = List.length out_ptr /\
  (forall i, (i < length)%nat ->
     nth_error (map q15_to_float (firstn length (skipn offset (mem b))) ++ skipn length out_ptr) i
       = option_map q15_to_float (nth_error (mem b) (offset + i))) /\
  (forall i, (length <= i)%nat ->
     nth_error (map q15_to_float (firstn length (skipn offset (mem b))) ++ skipn length out_ptr) i
       = nth_error out_ptr i).
Proof.
  intros mem s b offset len out Hf Hsrc Hdst.
  assert (Hlen : List.length (map q15_to_float (firstn len (skipn offset (mem b)))) = len).
  { rewrite length_map, length_firstn, length_skipn. lia. }
  split.
  - unfold raw_feature_get_data. rewrite Hf.
    rewrite arm_q15_to_float_spec; [reflexivity| |assumption].
    rewrite length_skipn. lia.
  - split.
    + rewrite length_app, Hlen, length_skipn. lia.
    + split.
      * intros i Hi. rewrite nth_error_app1 by (rewrite Hlen; exact Hi).
        rewrite nth_error_map, nth_error_firstn, nth_error_skipn.
        destruct (Nat.ltb_spec i len); [reflexivity|lia].
      * intros i Hi. rewrite nth_error_app2 by (rewrite Hlen; exact Hi).
        rewrite Hlen, nth_error_skipn. f_equal. lia.
Qed.

Lemma raw_feature_get_data_converts_witness :
  raw_feature_get_data samples_example 1 2 [0; 0; 0]%float (set_features (Some buf2) st_initial)
    = Some (0, [0.5; -1; 0]%float, set_features (Some buf2) st_initial).
Proof.
  assert (Hf : features (set_features (Some buf2) st_initial) = Some buf2) by reflexivity.
  assert (Hs : (1 + 2 <= List.length (samples_example buf2))%nat) by (vm_compute; lia).
  assert (Hd : (2 <= List.length [0; 0; 0]%float)%nat) by (simpl; lia).
  destruct (raw_feature_get_data_converts samples_example (set_features (Some buf2) st_initial)
              buf2 1 2 [0; 0; 0]%float Hf Hs Hd) as (H & _).
  rewrite H. vm_compute. reflexivity.
Defined.

(** ** What the steps leave alone *)

Lemma List_put_frame : forall r e s,
  semDataReadyForTreatment (List_put r e s) = semDataReadyForTreatment s /\
  semErrorCallback (List_put r e s) = semErrorCallback s /\
  features (List_put r e s) = features s /\
  DOE (List_put r e s) = DOE s /\
  DOUT_Control (List_put r e s) = DOUT_Control s /\
  console (List_put r e s) = console s.
Proof.
  intros r e s. unfold List_put.
  destruct (List_put_core (txns s) (get_list r s) e) as (m, l).
  destruct r; repeat split; reflexivity.
Qed.

Lemma List_remove_frame : forall r e s,
  semDataReadyForTreatment (List_remove r e s) = semDataReadyForTreatment s /\
  semErrorCallback (List_remove r e s) = semErrorCallback s /\
  features (List_remove r e s) = features s /\
  DOE (List_remove r e s) = DOE s /\
  DOUT_Control (List_remove r e s) = DOUT_Control s /\
  console (List_remove r e s) = console s.
Proof.
  intros r e s. unfold List_remove.
  destruct (List_remove_core (txns s) (get_list r s) e) as (m, l).
  destruct r; repeat split; reflexivity.
Qed.

Lemma I2SreadCallback_frame : forall t s,
  semErrorCallback (I2SreadCallback t s) = semErrorCallback s /\
  features (I2SreadCallback t s) = features s /\
  DOE (I2SreadCallback t s) = DOE s /\
  DOUT_Control (I2SreadCallback t s) = DOUT_Control s /\
  console (I2SreadCallback t s) = console s.
Proof.
  intros t s. unfold I2SreadCallback.
  destruct (List_prev t s) as [p|]; [|repeat split; reflexivity].
  unfold sem_post. cbn [sem_init sem_value set_semDataReadyForTreatment
    semErrorCallback features DOE DOUT_Control console].
  destruct (List_put_frame ref_treatmentList p (List_remove ref_i2sReadList p s))
    as (_ & -> & -> & -> & -> & ->).
  destruct (List_remove_frame ref_i2sReadList p s) as (_ & -> & -> & -> & -> & ->).
  repeat split; reflexivity.
Qed.

Lemma worker_wake_frame : forall s s' pc,
  worker_wake s = Some (s', pc) ->
  DOE s' = DOE s /\ DOUT_Control s' = DOUT_Control s /\ console s' = console s /\
  features s' = features s.
Proof.
  intros s s' pc H. unfold worker_wake, sem_wait in H. cbn [sem_value sem_init] in H.
  destruct (semDataReadyForTreatment s) as [|n]; [discriminate|].
  destruct (List_head ref_treatmentList (set_semDataReadyForTreatment n s));
    injection H as <- _; repeat split; reflexivity.
Qed.

Lemma worker_treat_outputs : forall t run s,
  DOE (fst (worker_treat t run s)) = DOE s /\
  DOUT_Control (fst (worker_treat t run s))
    = DOUT_Control (drive_outputs (result run) s).
Proof.
  intros t run s. unfold worker_treat.
  destruct (drive_outputs_frame (result run) (set_features (bufPtr (deref (txns s) t)) s))
    as (_ & _ & _ & _ & _ & _ & EDOE).
  assert (ED : DOUT_Control (drive_outputs (result run) (set_features (bufPtr (deref (txns s) t)) s))
               = DOUT_Control (drive_outputs (result run) s)).
  { unfold drive_outputs.
    destruct (PrimFloat.ltb 0.5 (classification_value (result run) GO_LABEL_INDEX));
      [|destruct (PrimFloat.ltb 0.5 (classification_value (result run) STOP_LABEL_INDEX))];
      reflexivity. }
  destruct (negb (res run =? 0)); cbn [fst].
  - cbn [ei_printf DOE DOUT_Control]. rewrite EDOE, ED. split; reflexivity.
  - destruct (List_remove_frame ref_treatmentList t
                (drive_outputs (result run) (set_features (bufPtr (deref (txns s) t)) s)))
      as (_ & _ & _ & -> & -> & _).
    rewrite EDOE, ED. split; reflexivity.
Qed.

(** Every move other than a classification leaves both registers as they
    are; a classification leaves [DOE] as it is and writes [DOUT_Control]
    through [drive_outputs] only. *)
Lemma step_registers : forall sys sys',
  step sys sys' ->
  DOE (fst sys') = DOE (fst sys) /\
  (DOUT_Control (fst sys') = DOUT_Control (fst sys) \/
   exists r, DOUT_Control (fst sys') = DOUT_Control (drive_outputs r (fst sys))).
Proof.
  intros sys sys' H. destruct H; cbn [fst].
  - destruct (I2SreadCallback_frame t s) as (_ & _ & -> & -> & _). auto.
  - auto.
  - destruct sys' as (s', pc'). cbn [fst].
    destruct (worker_wake_frame _ _ _ H) as (-> & -> & _). auto.
  - auto.
  - destruct (worker_treat_outputs t run s) as (-> & ->).
    split; [reflexivity|]. right. exists (result run). reflexivity.
  - unfold worker_return. cbn [fst].
    destruct (List_put_frame ref_i2sReadList t s) as (_ & _ & _ & -> & -> & _). auto.
Qed.

Lemma reachable_steps : forall sys,
  reachable sys <-> exists boot, steps (initial boot) sys.
Proof.
  intros sys; split.
  - intros H; induction H as [boot|sys sys' _ (boot & IH) Hs].
    + exists boot. apply steps_refl.
    + exists boot. eapply steps_step; eassumption.
  - intros (boot & H).
    remember (initial boot) as sys0 eqn:E. induction H as [|sys0 sys' sys'' _ IH Hs].
    + subst. apply reach_initial.
    + eapply reach_step; [apply IH; exact E|exact Hs].
Qed.


Lemma testbit_line_mask : forall k n,
  0 <= k -> 0 <= n -> n <> k -> Z.testbit (Z.shiftl 1 k) n = false.
Proof.
  intros k n Hk Hn Hne. rewrite Z.shiftl_1_l.
  rewrite Z.pow2_bits_eqb by assumption.
  apply Z.eqb_neq. congruence.
Qed.

Lemma DIO_other_reg_set : forall k n v,
  0 <= k -> 0 <= n < 32 -> n <> k -> DIO n (reg_set v (Z.shiftl 1 k)) = DIO n v.
Proof.
  intros k n v Hk Hn Hne. rewrite DIO_reg_set by assumption.
  rewrite testbit_line_mask by lia. apply orb_false_r.
Qed.

Lemma DIO_other_reg_clear : forall k n v,
  0 <= k -> 0 <= n < 32 -> n <> k -> DIO n (reg_clear v (Z.shiftl 1 k)) = DIO n v.
Proof.
  intros k n v Hk Hn Hne. rewrite DIO_reg_clear by assumption.
  rewrite testbit_line_mask by lia. apply andb_true_r.
Qed.

Lemma drive_outputs_other_lines : forall r s n,
  0 <= n < 32 -> n <> 6 -> n <> 7 ->
  DIO n (DOUT_Control (drive_outputs r s)) = DIO n (DOUT_Control s).
Proof.
  intros r s n Hn H6 H7. unfold drive_outputs.
  destruct (PrimFloat.ltb 0.5 (classification_value r GO_LABEL_INDEX));
    [|destruct (PrimFloat.ltb 0.5 (classification_value r STOP_LABEL_INDEX))];
    cbn [ei_printf set_DOUT_Control DOUT_Control].
  - rewrite DIO_other_reg_clear, DIO_other_reg_set by lia. reflexivity.
  - rewrite DIO_other_reg_set, DIO_other_reg_clear by lia. reflexivity.
  - reflexivity.
Qed.

(** ** The output lines along a run *)




(** X3: the other lines are never touched.  Along every run from a boot
    memory, every bit of the two registers other than bits 6 and 7 holds
    what it held at boot. *)
Theorem other_lines_are_never_written : forall (boot : State) (sys : Sys) (n : Z),
  steps (initial boot) sys ->
  0 <= n < 32 -> n <> 6 -> n <> 7 ->
  DIO n (DOUT_Control (fst sys)) = DIO n (DOUT_Control boot) /\
  DIO n (DOE (fst sys)) = DIO n (DOE boot).
Proof.
  intros boot sys n H Hn H6 H7.
  remember (initial boot) as sys0 eqn:E.
  induction H as [sys0|sys0 sys' sys'' _ IH Hs].
  - subst sys0.
    assert (EDOE : DOE (fst (initial boot))
                   = reg_set (DOE boot) (Z.lor (Z.shiftl 1 7) (Z.shiftl 1 6)))
      by reflexivity.
    assert (EDOUT : DOUT_Control (fst (initial boot))
                    = reg_clear (reg_set (DOUT_Control boot) (Z.shiftl 1 6)) (Z.shiftl 1 7))
      by reflexivity.
    rewrite EDOE, EDOUT. split.
    + rewrite DIO_other_reg_clear, DIO_other_reg_set by lia. reflexivity.
    + rewrite DIO_reg_set by lia. rewrite Z.lor_spec.
      rewrite !testbit_line_mask by lia. rewrite !orb_false_r. reflexivity.
  - destruct (IH E) as (IH1 & IH2).
    destruct (step_registers _ _ Hs) as (EDOE & [ED|(r & ED)]).
    + rewrite EDOE, ED. auto.
    + rewrite EDOE, ED. split; [|exact IH2].
      rewrite drive_outputs_other_lines by assumption. exact IH1.
Qed.

Lemma steps_sys_returning : steps (initial boot_example) sys_returning.
Proof.
  unfold sys_returning.
  eapply steps_step.
  - eapply steps_step.
    + eapply steps_step.
      * eapply steps_step; [apply steps_refl|].
        apply (step_read st_initial AtWait Txn2). vm_compute. auto.
      * apply (step_wake st_first_completion (st_busy, Treating Txn1)).
        vm_compute. reflexivity.
    + apply (step_read st_busy (Treating Txn1) Txn3). vm_compute. auto.
  - assert (E : worker_treat Txn1 ok_run st_busy_second_completion
                = (st_returning, Returning Txn1)) by (vm_compute; reflexivity).
    rewrite <- E. apply step_treat.
Qed.

Lemma other_lines_are_never_written_witness :
  DIO 0 (DOUT_Control (fst sys_returning)) = DIO 0 (DOUT_Control boot_example) /\
  DIO 0 (DOE (fst sys_returning)) = DIO 0 (DOE boot_example).
Proof.
  assert (Hn : 0 <= 0 < 32) by lia.
  assert (H6 : 0 <> 6) by discriminate.
  assert (H7 : 0 <> 7) by discriminate.
  exact (other_lines_are_never_written boot_example sys_returning 0
           steps_sys_returning Hn H6 H7).
Defined.

(** ** The handler, in terms of the two queues *)

Lemma read_head_state : forall s pc t c',
  Inv (s, pc) -> capture_queue s = t :: c' -> I2SreadCallback t s = s.
Proof.
  intros s pc t c' (c & q & HR & _) Hc. cbn [fst] in HR.
  rewrite (capture_queue_repr _ _ HR) in Hc. subst c.
  exact (I2SreadCallback_head _ _ _ HR).
Qed.

Lemma read_move_queues : forall s pc c1 p t c2,
  Inv (s, pc) -> capture_queue s = c1 ++ p :: t :: c2 ->
  capture_queue (I2SreadCallback t s) = c1 ++ t :: c2 /\
  treatment_queue (I2SreadCallback t s) = treatment_queue s ++ [p] /\
  semDataReadyForTreatment (I2SreadCallback t s) = S (semDataReadyForTreatment s).
Proof.
  intros s pc c1 p t c2 (c & q & HR & HT & Hperm & _) Hc. cbn [fst snd] in *.
  rewrite (capture_queue_repr _ _ HR) in Hc. subst c.
  destruct (I2SreadCallback_move s c1 p t c2 q HR HT (partition_disjoint _ _ _ Hperm))
    as (HR' & HT' & Es & _).
  rewrite (capture_queue_repr _ _ HR'), (treatment_queue_repr _ _ HT').
  rewrite (treatment_queue_repr _ _ HT). auto.
Qed.


Lemma Inv_quiescent : forall s,
  Inv (s, AtWait) ->
  (semDataReadyForTreatment s = 0%nat <-> treatment_queue s = []).
Proof.
  intros s (c & q & _ & HT & _ & _ & Hlen & _). cbn [fst snd busy] in *.
  rewrite (treatment_queue_repr _ _ HT). rewrite Nat.add_0_r in Hlen.
  split.
  - intros E. rewrite E in Hlen. destruct q; [reflexivity|discriminate].
  - intros ->. simpl in Hlen. lia.
Qed.

(** ** More on the queues along a run *)



(** X5: a wake is never spurious.  In every reachable state in which the
    worker is at its wait, it is blocked exactly when the treatment queue
    is empty; and when it wakes it finds the head of the treatment queue,
    so the test of [transactionToTreat] against [NULL] never fails. *)
Theorem wake_is_never_spurious : forall s : State,
  reachable (s, AtWait) ->
  (worker_wake s = None <-> treatment_queue s = []) /\
  (forall s' pc', worker_wake s = Some (s', pc') ->
     exists t, pc' = Treating t /\ hd_error (treatment_queue s) = Some t /\
               treatment_queue s' = treatment_queue s /\
               semDataReadyForTreatment s = S (semDataReadyForTreatment s')).
Proof.
  intros s Hr. assert (HI := reachable_Inv _ Hr).
  destruct (Inv_quiescent s HI) as (Hq1 & Hq2).
  split.
  - split.
    + intros Hw. apply Hq1.
      destruct (semDataReadyForTreatment s) as [|n] eqn:En; [reflexivity|].
      destruct (worker_wake_pending s n HI En) as (t & q' & _ & Hw').
      rewrite Hw in Hw'. discriminate.
    + intros Hq. apply worker_wake_blocked. apply Hq2. exact Hq.
  - intros s' pc' Hw.
    destruct (semDataReadyForTreatment s) as [|n] eqn:En.
    + rewrite (worker_wake_blocked s En) in Hw. discriminate.
    + destruct (worker_wake_pending s n HI En) as (t & q' & Eq & Hw').
      rewrite Hw in Hw'. injection Hw' as -> ->.
      exists t. split; [reflexivity|]. split; [rewrite Eq; reflexivity|].
      split; reflexivity.
Qed.

Lemma wake_is_never_spurious_witness :
  (worker_wake st_first_completion = None <-> treatment_queue st_first_completion = []) /\
  (forall s' pc', worker_wake st_first_completion = Some (s', pc') ->
     exists t, pc' = Treating t /\ hd_error (treatment_queue st_first_completion) = Some t /\
               treatment_queue s' = treatment_queue st_first_completion /\
               semDataReadyForTreatment st_first_completion = S (semDataReadyForTreatment s')).
Proof.
  exact (wake_is_never_spurious st_first_completion reachable_st_first_completion).
Defined.

(** X6: the classifier never reads a buffer that is being captured.  While
    the worker treats [t], the buffer it binds to [features] is the one
    [I2S_setup] gave [t], [t] is in the treatment queue, and no descriptor
    of the capture queue names that buffer. *)
Theorem classifier_buffer_is_not_captured :
  forall (s : State) (t : TxnPtr) (run : classifier_run),
  reachable (s, Treating t) ->
  features (fst (worker_treat t run s)) = Some (i2sBuf_of t) /\
  In t (treatment_queue s) /\
  (forall w, In w (capture_queue s) ->
     bufPtr (deref (txns s) w) <> features (fst (worker_treat t run s))).
Proof.
  intros s t run Hr. assert (HI := reachable_Inv _ Hr).
  assert (Hf : features (fst (worker_treat t run s)) = Some (i2sBuf_of t)).
  { destruct (Inv_buffers _ _ t HI) as (Eb & _).
    destruct (classified_frame t run s) as (_ & _ & _ & _ & _ & Ef & _).
    destruct (Z.eq_dec (res run) 0) as [Hres|Hres].
    - rewrite (worker_treat_success _ _ _ Hres). cbn [fst].
      destruct (List_remove_frame ref_treatmentList t (classified t run s))
        as (_ & _ & -> & _).
      rewrite Ef. exact Eb.
    - rewrite (worker_treat_failure _ _ _ Hres). cbn [fst ei_printf features].
      rewrite Ef. exact Eb. }
  split; [exact Hf|].
  destruct HI as (c & q & HR & HT & Hperm & _ & _ & Hhd & _ & Hbuf). cbn [fst snd] in *.
  rewrite (capture_queue_repr _ _ HR), (treatment_queue_repr _ _ HT).
  specialize (Hhd t eq_refl).
  assert (Htq : In t q) by (destruct q; [discriminate|injection Hhd as ->; left; reflexivity]).
  split; [exact Htq|].
  intros w Hw. rewrite Hf. destruct (Hbuf w) as (-> & _).
  intros E. injection E as E. apply i2sBuf_of_injective in E. subst w.
  exact (partition_disjoint _ _ _ Hperm t Hw Htq).
Qed.

Lemma classifier_buffer_is_not_captured_witness :
  features (fst (worker_treat Txn1 ok_run (fst sys_busy_second_completion)))
    = Some (i2sBuf_of Txn1) /\
  In Txn1 (treatment_queue (fst sys_busy_second_completion)) /\
  (forall w, In w (capture_queue (fst sys_busy_second_completion)) ->
     bufPtr (deref (txns (fst sys_busy_second_completion)) w)
       <> features (fst (worker_treat Txn1 ok_run (fst sys_busy_second_completion)))).
Proof.
  exact (classifier_buffer_is_not_captured (fst sys_busy_second_completion) Txn1 ok_run
           reachable_st_busy_second_completion).
Defined.

(** X7: a repeated notification is harmless.  When the driver's new active
    target [t] stands second in the capture queue, as it does at the end of
    every capture period, a second call of the handler for the same [t]
    changes nothing: [t] is then the head and has no predecessor. *)
Theorem repeated_completion_changes_nothing :
  forall (s : State) (pc : WorkerPc) (p t : TxnPtr) (c2 : list TxnPtr),
  reachable (s, pc) ->
  capture_queue s = p :: t :: c2 ->
  capture_queue (I2SreadCallback t s) = t :: c2 /\
  I2SreadCallback t (I2SreadCallback t s) = I2SreadCallback t s.
Proof.
  intros s pc p t c2 Hr Hc.
  assert (HI := reachable_Inv _ Hr).
  assert (Hr' : reachable (I2SreadCallback t s, pc)).
  { eapply reach_step; [exact Hr|]. apply step_read. rewrite Hc. right; left; reflexivity. }
  assert (HI' := reachable_Inv _ Hr').
  destruct (read_move_queues s pc [] p t c2 HI Hc) as (Ec & _).
  split; [exact Ec|].
  exact (read_head_state _ _ _ _ HI' Ec).
Qed.

Lemma repeated_completion_changes_nothing_witness :
  capture_queue (I2SreadCallback Txn3 st_busy) = [Txn3] /\
  I2SreadCallback Txn3 (I2SreadCallback Txn3 st_busy) = I2SreadCallback Txn3 st_busy.
Proof.
  assert (Hc : capture_queue st_busy = [Txn2; Txn3]) by (vm_compute; reflexivity).
  exact (repeated_completion_changes_nothing st_busy (Treating Txn1) Txn2 Txn3 []
           reachable_st_busy Hc).
Defined.

(** ** Whole cycles *)

Lemma iteration_spec : forall s n run,
  Inv (s, AtWait) ->
  semDataReadyForTreatment s = S n ->
  res run = 0 ->
  exists t s',
    controlThread_iteration run s = Some (s', AtWait) /\
    Inv (s', AtWait) /\
    treatment_queue s = t :: treatment_queue s' /\
    capture_queue s' = capture_queue s ++ [t] /\
    semDataReadyForTreatment s' = n.
Proof.
  intros s n run HI Hs Hres.
  destruct (worker_wake_pending s n HI Hs) as (t & q' & Hq & Hw).
  assert (HI1 : Inv (set_semDataReadyForTreatment n s, Treating t)).
  { destruct (Inv_wake s _ HI Hw) as (H & _). exact H. }
  destruct (worker_cycle _ t run HI1 Hres) as (HI3 & Eq & Ec & Es).
  exists t.
  exists (List_put ref_i2sReadList t
            (List_remove ref_treatmentList t
               (classified t run (set_semDataReadyForTreatment n s)))).
  split.
  { unfold controlThread_iteration. rewrite Hw.
    rewrite (worker_treat_success _ _ _ Hres). reflexivity. }
  split; [exact HI3|].
  destruct (treatment_queue_set_sem n s) as (Et & Ecs).
  rewrite Et in Eq. rewrite Ecs in Ec.
  split; [exact Eq|]. split; [exact Ec|exact Es].
Qed.

Lemma iteration_reachable : forall s run sys',
  reachable (s, AtWait) ->
  controlThread_iteration run s = Some sys' ->
  reachable sys'.
Proof.
  intros s run sys' Hr Hit. unfold controlThread_iteration in Hit.
  destruct (worker_wake s) as [[s1 pc1]|] eqn:Hw; [|discriminate].
  assert (Hr1 : reachable (s1, pc1)).
  { eapply reach_step; [exact Hr|]. apply step_wake. exact Hw. }
  destruct pc1 as [|t|t|v|]; try (injection Hit as <-; exact Hr1).
  assert (Hr2 : reachable (worker_treat t run s1)).
  { eapply reach_step; [exact Hr1|]. apply step_treat. }
  destruct (worker_treat t run s1) as (s2, pc2).
  destruct pc2 as [|t2|t2|v|]; try (injection Hit as <-; exact Hr2).
  injection Hit as <-. eapply reach_step; [exact Hr2|]. apply step_return.
Qed.

(** One capture period from a state with nothing pending: the finished
    descriptor goes round to the tail of the capture queue. *)
Lemma period_rotates : forall s p t c2 run,
  reachable (s, AtWait) ->
  semDataReadyForTreatment s = 0%nat ->
  capture_queue s = p :: t :: c2 ->
  res run = 0 ->
  reachable (completion_then_cycle t run s, AtWait) /\
  semDataReadyForTreatment (completion_then_cycle t run s) = 0%nat /\
  capture_queue (completion_then_cycle t run s) = t :: c2 ++ [p] /\
  treatment_queue (completion_then_cycle t run s) = [].
Proof.
  intros s p t c2 run Hr Hs Hc Hres.
  assert (HI := reachable_Inv _ Hr).
  assert (Hq : treatment_queue s = []) by (apply (Inv_quiescent s HI); exact Hs).
  assert (Hr1 : reachable (I2SreadCallback t s, AtWait)).
  { eapply reach_step; [exact Hr|]. apply step_read. rewrite Hc. right; left; reflexivity. }
  assert (HI1 := reachable_Inv _ Hr1).
  destruct (read_move_queues s AtWait [] p t c2 HI Hc) as (Ec & Eq & Es).
  rewrite Hq in Eq. rewrite Hs in Es. simpl in Ec, Eq.
  destruct (iteration_spec _ 0 run HI1 Es Hres) as (t0 & s' & Hit & HI' & Eq' & Ec' & Es').
  unfold completion_then_cycle. rewrite Hit.
  rewrite Eq in Eq'. injection Eq' as <- Eq'.
  split; [exact (iteration_reachable _ _ _ Hr1 Hit)|].
  split; [exact Es'|].
  split; [rewrite Ec', Ec; reflexivity|].
  symmetry; exact Eq'.
Qed.

(** X8: the ring closes.  From a reachable state in which the worker
    waits and no signal is pending all three descriptors are in the capture
    queue; each capture period followed by a successful cycle of the worker
    moves the finished descriptor to the tail, and after three periods the
    capture queue is back in its order, the treatment queue is empty, no
    signal is pending, and the state is again a reachable one in which the
    worker waits. *)
Theorem three_periods_restore_the_ring :
  forall (s : State) (a b c : TxnPtr) (r1 r2 r3 : classifier_run),
  reachable (s, AtWait) ->
  semDataReadyForTreatment s = 0%nat ->
  capture_queue s = [a; b; c] ->
  res r1 = 0 -> res r2 = 0 -> res r3 = 0 ->
  capture_queue (completion_then_cycle b r1 s) = [b; c; a] /\
  capture_queue (completion_then_cycle c r2 (completion_then_cycle b r1 s)) = [c; a; b] /\
  capture_queue
    (completion_then_cycle a r3
       (completion_then_cycle c r2 (completion_then_cycle b r1 s))) = [a; b; c] /\
  treatment_queue
    (completion_then_cycle a r3
       (completion_then_cycle c r2 (completion_then_cycle b r1 s))) = [] /\
  semDataReadyForTreatment
    (completion_then_cycle a r3
       (completion_then_cycle c r2 (completion_then_cycle b r1 s))) = 0%nat /\
  reachable
    (completion_then_cycle a r3
       (completion_then_cycle c r2 (completion_then_cycle b r1 s)), AtWait).
Proof.
  intros s a b c r1 r2 r3 Hr Hs Hc H1 H2 H3.
  destruct (period_rotates s a b [c] r1 Hr Hs Hc H1) as (Hr1 & Hs1 & Hc1 & _).
  simpl in Hc1.
  destruct (period_rotates _ b c [a] r2 Hr1 Hs1 Hc1 H2) as (Hr2 & Hs2 & Hc2 & _).
  simpl in Hc2.
  destruct (period_rotates _ c a [b] r3 Hr2 Hs2 Hc2 H3) as (Hr3 & Hs3 & Hc3 & Hq3).
  simpl in Hc3.
  auto 10.
Qed.

Lemma three_periods_restore_the_ring_witness :
  capture_queue (completion_then_cycle Txn2 ok_run st_initial) = [Txn2; Txn3; Txn1] /\
  capture_queue (completion_then_cycle Txn3 ok_run
                   (completion_then_cycle Txn2 ok_run st_initial)) = [Txn3; Txn1; Txn2] /\
  capture_queue
    (completion_then_cycle Txn1 ok_run
       (completion_then_cycle Txn3 ok_run (completion_then_cycle Txn2 ok_run st_initial)))
    = [Txn1; Txn2; Txn3] /\
  treatment_queue
    (completion_then_cycle Txn1 ok_run
       (completion_then_cycle Txn3 ok_run (completion_then_cycle Txn2 ok_run st_initial)))
    = [] /\
  semDataReadyForTreatment
    (completion_then_cycle Txn1 ok_run
       (completion_then_cycle Txn3 ok_run (completion_then_cycle Txn2 ok_run st_initial)))
    = 0%nat /\
  reachable
    (completion_then_cycle Txn1 ok_run
       (completion_then_cycle Txn3 ok_run (completion_then_cycle Txn2 ok_run st_initial)),
     AtWait).
Proof.
  assert (Hs : semDataReadyForTreatment st_initial = 0%nat) by (vm_compute; reflexivity).
  assert (Hc : capture_queue st_initial = [Txn1; Txn2; Txn3]) by (vm_compute; reflexivity).
  assert (H0 : res ok_run = 0) by reflexivity.
  exact (three_periods_restore_the_ring st_initial Txn1 Txn2 Txn3 ok_run ok_run ok_run
           reachable_st_initial Hs Hc H0 H0 H0).
Defined.

(** X9: the handler and the worker's return commute.  When a capture period
    ends while the worker stands between its [List_remove] and its
    [List_put], the two queues and the semaphore end up the same whether
    the handler runs before the [List_put] or after it. *)
Theorem completion_commutes_with_return :
  forall (s : State) (w t : TxnPtr),
  reachable (s, Returning w) ->
  In t (capture_queue s) ->
  capture_queue (I2SreadCallback t (fst (worker_return w s)))
    = capture_queue (fst (worker_return w (I2SreadCallback t s))) /\
  treatment_queue (I2SreadCallback t (fst (worker_return w s)))
    = treatment_queue (fst (worker_return w (I2SreadCallback t s))) /\
  semDataReadyForTreatment (I2SreadCallback t (fst (worker_return w s)))
    = semDataReadyForTreatment (fst (worker_return w (I2SreadCallback t s))).
Proof.
  intros s w t Hr Hin.
  assert (HI := reachable_Inv _ Hr).
  assert (HIa : Inv (I2SreadCallback t s, Returning w)) by (apply Inv_read; assumption).
  assert (HIb : Inv (worker_return w s)) by (apply Inv_return; exact HI).
  unfold worker_return in *. cbn [fst].
  destruct (return_queues s w HI) as (Ec & Eq & _ & Es & _).
  destruct (return_queues _ w HIa) as (Eca & Eqa & _ & Esa & _).
  rewrite Eca, Eqa, Esa.
  destruct (in_head_or_pred _ _ Hin) as [(c' & Hc)|(c1 & p & c2 & Hc)].
  - rewrite (read_head_state _ _ _ _ HI Hc).
    assert (Hcb : capture_queue (List_put ref_i2sReadList w s) = t :: (c' ++ [w]))
      by (rewrite Ec, Hc; reflexivity).
    rewrite (read_head_state _ _ _ _ HIb Hcb).
    rewrite Ec, Eq, Es. auto.
  - assert (Hcb : capture_queue (List_put ref_i2sReadList w s)
                  = c1 ++ p :: t :: (c2 ++ [w])).
    { rewrite Ec, Hc, <- app_assoc. reflexivity. }
    destruct (read_move_queues _ _ _ _ _ _ HI Hc) as (-> & -> & ->).
    destruct (read_move_queues _ _ _ _ _ _ HIb Hcb) as (-> & -> & ->).
    rewrite Eq, Es, <- app_assoc. auto.
Qed.

Lemma completion_commutes_with_return_witness :
  capture_queue (I2SreadCallback Txn3 (fst (worker_return Txn1 st_after_first_treat)))
    = capture_queue (fst (worker_return Txn1 (I2SreadCallback Txn3 st_after_first_treat))) /\
  treatment_queue (I2SreadCallback Txn3 (fst (worker_return Txn1 st_after_first_treat)))
    = treatment_queue (fst (worker_return Txn1 (I2SreadCallback Txn3 st_after_first_treat))) /\
  semDataReadyForTreatment (I2SreadCallback Txn3 (fst (worker_return Txn1 st_after_first_treat)))
    = semDataReadyForTreatment
        (fst (worker_return Txn1 (I2SreadCallback Txn3 st_after_first_treat))).
Proof.
  assert (Hr : reachable (st_after_first_treat, Returning Txn1)).
  { eapply reachable_eq.
    - eapply reach_step; [apply reachable_st_busy|].
      apply (step_treat st_busy Txn1 ok_run).
    - vm_compute. reflexivity. }
  assert (Hin : In Txn3 (capture_queue st_after_first_treat)) by (vm_compute; auto).
  exact (completion_commutes_with_return st_after_first_treat Txn1 Txn3 Hr Hin).
Defined.

(** ** The start of the worker *)

Lemma I2S_setup_frame : forall s,
  DOE (I2S_setup s) = DOE s /\
  DOUT_Control (I2S_setup s) = DOUT_Control s /\
  console (I2S_setup s) = console s /\
  features (I2S_setup s) = features s /\
  semDataReadyForTreatment (I2S_setup s) = semDataReadyForTreatment s /\
  semErrorCallback (I2S_setup s) = semErrorCallback s.
Proof. intros s. repeat split; reflexivity. Qed.

(** X10: a failed start is silent.  The worker reaches its loop exactly
    when the codec opens and configures, the driver opens and [sem_init]
    does not return -1, and then it is in the state [controlThread_setup]
    describes, a reachable one.  In every other case it is caught in a
    [while(1);] with both GPIO registers and the console exactly as they
    were: the lines are never enabled and nothing is printed; and when the
    codec or the driver is at fault no queue has been touched either. *)
Theorem failed_start_is_silent : forall (env : setup_results) (boot : State),
  (snd (controlThread_start env (ei_main_init boot)) = AtWait <-> setup_succeeds env = true) /\
  (setup_succeeds env = true ->
     controlThread_start env (ei_main_init boot) = initial boot /\
     reachable (controlThread_start env (ei_main_init boot))) /\
  (setup_succeeds env = false ->
     snd (controlThread_start env (ei_main_init boot)) = Hung /\
     DOE (fst (controlThread_start env (ei_main_init boot))) = DOE boot /\
     DOUT_Control (fst (controlThread_start env (ei_main_init boot))) = DOUT_Control boot /\
     console (fst (controlThread_start env (ei_main_init boot))) = console boot) /\
  (AudioCodec_open_ok env && AudioCodec_config_ok env && I2S_open_ok env = false ->
     fst (controlThread_start env (ei_main_init boot)) = ei_main_init boot).
Proof.
  intros [co cc io rc] boot.
  unfold controlThread_start, AudioCodec_setup, I2S_setup_checked, setup_succeeds.
  cbn [AudioCodec_open_ok AudioCodec_config_ok I2S_open_ok sem_init_retc].
  destruct co, cc, io; cbn [negb andb fst snd];
    try (split; [split; intros; discriminate|];
         split; [intros; discriminate|];
         split; [intros _; repeat split; reflexivity|];
         intros _; reflexivity).
  destruct (rc =? -1); cbn [negb fst snd].
  - split; [split; intros; discriminate|].
    split; [intros; discriminate|].
    split; [intros _|intros; discriminate].
    destruct (I2S_setup_frame (ei_main_init boot)) as (-> & -> & -> & _).
    repeat split; reflexivity.
  - split; [split; reflexivity|].
    split; [intros _; split; [reflexivity|apply reach_initial]|].
    split; intros; discriminate.
Qed.

(** ** The adapter, pulled in pieces *)

Lemma firstn_add : forall (A : Type) (n1 n2 : nat) (l : list A),
  firstn (n1 + n2) l = firstn n1 l ++ firstn n2 (skipn n1 l).
Proof.
  intros A n1; induction n1 as [|n1 IH]; intros n2 l.
  - reflexivity.
  - destruct l as [|x l]; simpl.
    + rewrite firstn_nil. reflexivity.
    + rewrite IH. reflexivity.
Qed.

(** X11: pulling in pieces.  With [features] bound and the whole range in
    bounds, a pull of [n1] samples at [offset] followed by a pull of [n2]
    samples at [offset + n1] into the destination just behind the first
    piece leaves the same destination as one pull of [n1 + n2] samples at
    [offset]; each call returns 0 and leaves the program state alone. *)
Theorem raw_feature_get_data_in_pieces :
  forall (mem : Samples) (s : State) (b : BufPtr) (offset n1 n2 : nat) (out_ptr : list float),
  features s = Some b ->
  (offset + (n1 + n2) <= length (mem b))%nat ->
  (n1 + n2 <= length out_ptr)%nat ->
  exists o1 o2,
    raw_feature_get_data mem offset n1 out_ptr s = Some (0, o1, s) /\
    raw_feature_get_data mem (offset + n1) n2 (skipn n1 o1) s = Some (0, o2, s) /\
    raw_feature_get_data mem offset (n1 + n2) out_ptr s = Some (0, firstn n1 o1 ++ o2, s).
Proof.
  intros mem s b offset n1 n2 out Hf Hsrc Hdst.
  set (src := skipn offset (mem b)).
  assert (Hsl : length src = (length (mem b) - offset)%nat) by apply length_skipn.
  assert (Hl1 : length (map q15_to_float (firstn n1 src)) = n1).
  { rewrite length_map, length_firstn. lia. }
  exists (map q15_to_float (firstn n1 src) ++ skipn n1 out).
  exists (map q15_to_float (firstn n2 (skipn n1 src)) ++ skipn n2 (skipn n1 out)).
  assert (Hsk : skipn n1 (map q15_to_float (firstn n1 src) ++ skipn n1 out) = skipn n1 out).
  { rewrite skipn_app, Hl1, Nat.sub_diag. simpl.
    rewrite skipn_all2 by (rewrite Hl1; lia). reflexivity. }
  assert (Hfi : firstn n1 (map q15_to_float (firstn n1 src) ++ skipn n1 out)
                = map q15_to_float (firstn n1 src)).
  { rewrite firstn_app, Hl1, Nat.sub_diag. simpl.
    rewrite firstn_all2 by (rewrite Hl1; lia). apply app_nil_r. }
  unfold raw_feature_get_data. rewrite Hf.
  split; [|split].
  - fold src. rewrite arm_q15_to_float_spec by lia. reflexivity.
  - rewrite Hsk.
    assert (E : skipn (offset + n1) (mem b) = skipn n1 src).
    { unfold src. rewrite skipn_skipn. f_equal. lia. }
    rewrite E.
    rewrite arm_q15_to_float_spec;
      [reflexivity|rewrite length_skipn; lia|rewrite length_skipn; lia].
  - fold src. rewrite arm_q15_to_float_spec by lia.
    rewrite Hfi, firstn_add, map_app, <- app_assoc.
    rewrite skipn_skipn. rewrite (Nat.add_comm n2 n1). reflexivity.
Qed.

Lemma raw_feature_get_data_in_pieces_witness :
  exists o1 o2,
    raw_feature_get_data samples_example 1 1 [0; 0; 0]%float
      (set_features (Some buf2) st_initial)
      = Some (0, o1, set_features (Some buf2) st_initial) /\
    raw_feature_get_data samples_example (1 + 1) 2 (skipn 1 o1)
      (set_features (Some buf2) st_initial)
      = Some (0, o2, set_features (Some buf2) st_initial) /\
    raw_feature_get_data samples_example 1 (1 + 2) [0; 0; 0]%float
      (set_features (Some buf2) st_initial)
      = Some (0, firstn 1 o1 ++ o2, set_features (Some buf2) st_initial).
Proof.
  assert (Hf : features (set_features (Some buf2) st_initial) = Some buf2) by reflexivity.
  assert (Hs : (1 + (1 + 2) <= length (samples_example buf2))%nat) by (vm_compute; lia).
  assert (Hd : (1 + 2 <= length [0; 0; 0]%float)%nat) by (simpl; lia).
  exact (raw_feature_get_data_in_pieces samples_example (set_features (Some buf2) st_initial)
           buf2 1 1 2 [0; 0; 0]%float Hf Hs Hd).
Defined.

(** ** The order of treatment along a run *)

Lemma exec_step : forall mv sys sys', exec mv sys = Some sys' -> step sys sys'.
Proof.
  intros mv [s pc] sys' H. destruct mv; simpl in H.
  - destruct (in_dec TxnPtr_eq_dec t (capture_queue s)) as [Hin|]; [|discriminate].
    injection H as <-. apply step_read. exact Hin.
  - injection H as <-. apply step_error.
  - destruct pc; try discriminate. apply step_wake. exact H.
  - destruct pc; try discriminate. injection H as <-. apply step_wait_failed.
  - destruct pc; try discriminate. injection H as <-. apply step_treat.
  - destruct pc; try discriminate. injection H as <-. apply step_return.
Qed.

Lemma Inv_List_prev : forall s pc t,
  Inv (s, pc) ->
  (forall c', capture_queue s = t :: c' -> List_prev t s = None) /\
  (forall c1 p c2, capture_queue s = c1 ++ p :: t :: c2 -> List_prev t s = Some p).
Proof.
  intros s pc t (c & q & HR & _). cbn [fst] in HR.
  rewrite (capture_queue_repr _ _ HR). unfold List_prev. split.
  - intros c' ->. exact (repr_prev_first _ _ _ _ HR).
  - intros c1 p c2 ->. exact (repr_prev_next _ _ _ _ _ _ HR).
Qed.

Lemma treatment_queue_ext : forall s s',
  txns s' = txns s -> treatmentList s' = treatmentList s ->
  treatment_queue s' = treatment_queue s.
Proof.
  intros s s' E1 E2. unfold treatment_queue, queue. cbn [get_list]. rewrite E1, E2. reflexivity.
Qed.

Lemma history_ok_move : forall st mv, history_ok st -> history_ok (move st mv).
Proof.
  intros [[s pc] h] mv (HI & Hc & Hcl). cbn [fst snd] in *.
  unfold move. cbn [fst snd].
  destruct (exec mv (s, pc)) as [sys'|] eqn:He;
    [|split; [exact HI|split; [exact Hc|exact Hcl]]].
  assert (HI' : Inv sys') by (eapply Inv_step; [exact HI|apply (exec_step _ _ _ He)]).
  split; [exact HI'|]. cbn [fst snd].
  destruct mv; simpl in He.
  - (* the handler *)
    destruct (in_dec TxnPtr_eq_dec t (capture_queue s)) as [Hin|]; [|discriminate].
    injection He as <-. cbn [fst snd record].
    destruct (Inv_List_prev s pc t HI) as (Hp0 & Hp1).
    destruct (in_head_or_pred _ _ Hin) as [(c' & Ec)|(c1 & p & c2 & Ec)].
    + rewrite (Hp0 _ Ec). rewrite (read_head_state _ _ _ _ HI Ec).
      split; [exact Hc|exact Hcl].
    + rewrite (Hp1 _ _ _ Ec). cbn [completed classified_on removed].
      destruct (read_move_queues _ _ _ _ _ _ HI Ec) as (_ & Eq & _).
      rewrite Eq, Hc, app_assoc. split; [reflexivity|].
      destruct Hcl as [Hcl|(t0 & v & Hpc & Hcl & Hhd)]; [left; exact Hcl|].
      right. exists t0, v. split; [exact Hpc|]. split; [exact Hcl|].
      destruct (treatment_queue s); [discriminate|exact Hhd].
  - (* the error callback *)
    injection He as <-. cbn [fst snd record]. split; [exact Hc|exact Hcl].
  - (* the wake *)
    destruct pc; try discriminate. cbn [record].
    destruct sys' as (s', pc').
    destruct (semDataReadyForTreatment s) as [|n] eqn:En;
      [rewrite (worker_wake_blocked s En) in He; discriminate|].
    destruct (worker_wake_pending s n HI En) as (t & q' & _ & Hw).
    rewrite He in Hw. injection Hw as -> ->. cbn [fst snd].
    destruct (treatment_queue_set_sem n s) as (-> & _).
    split; [exact Hc|]. left.
    destruct Hcl as [Hcl|(t0 & v & Hpc & _)]; [exact Hcl|discriminate].
  - (* the failed wait *)
    destruct pc; try discriminate. injection He as <-.
    unfold worker_wait_failed. cbn [fst snd record].
    rewrite (treatment_queue_ext s (ei_printf ("retc fail." ++ CRLF) s)) by reflexivity.
    split; [exact Hc|]. left.
    destruct Hcl as [Hcl|(t0 & v & Hpc & _)]; [exact Hcl|discriminate].
  - (* the treatment *)
    destruct pc as [|t|t|v|]; try discriminate. injection He as <-.
    assert (Hcl0 : classified_on h = removed h)
      by (destruct Hcl as [Hcl|(t0 & v & Hpc & _)]; [exact Hcl|discriminate]).
    cbn [record].
    destruct (Z.eqb_spec (res run) 0) as [Hres|Hres].
    + rewrite (worker_treat_success _ _ _ Hres). cbn [fst snd completed classified_on removed].
      destruct (treat_success_queues s t run HI Hres) as (_ & Eq & _).
      rewrite Hc, Eq, <- app_assoc. split; [reflexivity|].
      left. rewrite Hcl0. reflexivity.
    + rewrite (worker_treat_failure _ _ _ Hres). cbn [fst snd completed classified_on removed].
      destruct (classified_frame t run s) as (E1 & _ & E3 & _).
      assert (Eq : treatment_queue (ei_printf ("run_classifier fail." ++ CRLF) (classified t run s))
                   = treatment_queue s).
      { apply treatment_queue_ext; cbn [ei_printf txns treatmentList]; assumption. }
      rewrite Eq. split; [exact Hc|].
      right. exists t, 1. split; [reflexivity|]. split; [rewrite Hcl0; reflexivity|].
      destruct HI as (c & q & _ & HT & _ & _ & _ & Hhd & _). cbn [fst snd] in *.
      rewrite (treatment_queue_repr _ _ HT). apply Hhd. reflexivity.
  - (* the return *)
    destruct pc as [|t|t|v|]; try discriminate. injection He as <-.
    unfold worker_return. cbn [fst snd record].
    destruct (return_queues s t HI) as (_ & -> & _).
    split; [exact Hc|]. left.
    destruct Hcl as [Hcl|(t0 & v & Hpc & _)]; [exact Hcl|discriminate].
Qed.

Lemma history_ok_run : forall mvs st, history_ok st -> history_ok (run_moves mvs st).
Proof.
  intros mvs; induction mvs as [|mv mvs IH]; intros st H; [exact H|].
  unfold run_moves. cbn [fold_left]. apply IH. apply history_ok_move. exact H.
Qed.

Lemma reachable_move : forall st mv, reachable (fst st) -> reachable (fst (move st mv)).
Proof.
  intros st mv Hr. unfold move.
  destruct (exec mv (fst st)) as [sys'|] eqn:He; [|exact Hr].
  cbn [fst]. eapply reach_step; [exact Hr|]. apply (exec_step _ _ _ He).
Qed.

Lemma reachable_run : forall mvs st, reachable (fst st) -> reachable (fst (run_moves mvs st)).
Proof.
  intros mvs; induction mvs as [|mv mvs IH]; intros st H; [exact H|].
  unfold run_moves. cbn [fold_left]. apply IH. apply reachable_move. exact H.
Qed.

(** X12: buffers are treated in the order they were captured.  Along every
    run from boot, whatever the interleaving of completions, errors and the
    worker's moves: the descriptors the handler has handed over are, in
    that order, those the worker has taken out of the treatment queue
    followed by those still in it; and the descriptors the classifier has
    been run on are the first of those handed over, in the same order: no
    buffer is classified out of turn, twice, or before an earlier one. *)
Theorem treatment_follows_capture_order : forall (boot : State) (mvs : list Move),
  reachable (fst (run_moves mvs (initial boot, no_history))) /\
  completed (snd (run_moves mvs (initial boot, no_history)))
    = removed (snd (run_moves mvs (initial boot, no_history)))
      ++ treatment_queue (fst (fst (run_moves mvs (initial boot, no_history)))) /\
  (exists rest,
     completed (snd (run_moves mvs (initial boot, no_history)))
       = classified_on (snd (run_moves mvs (initial boot, no_history))) ++ rest) /\
  NoDup (treatment_queue (fst (fst (run_moves mvs (initial boot, no_history))))).
Proof.
  intros boot mvs.
  assert (H0 : history_ok (initial boot, no_history)).
  { split; [apply Inv_initial|]. cbn [fst snd].
    destruct (initial_state boot) as (Em & _ & ET & _).
    assert (Eq : treatment_queue (fst (initial boot)) = []).
    { unfold treatment_queue, queue. cbn [get_list]. rewrite ET. reflexivity. }
    rewrite Eq. split; [reflexivity|left; reflexivity]. }
  assert (Hr0 : reachable (fst (initial boot, no_history))) by apply reach_initial.
  pose proof (history_ok_run mvs _ H0) as (HI & Hc & Hcl).
  pose proof (reachable_run mvs _ Hr0) as Hr.
  split; [exact Hr|]. split; [exact Hc|].
  split.
  - destruct Hcl as [Hcl|(t & v & _ & Hcl & Hhd)].
    + rewrite Hcl. eexists. exact Hc.
    + rewrite Hcl, Hc.
      destruct (treatment_queue (fst (fst (run_moves mvs (initial boot, no_history)))))
        as [|t' q']; [discriminate|].
      injection Hhd as ->. exists q'. rewrite <- app_assoc. reflexivity.
  - destruct (fst (run_moves mvs (initial boot, no_history))) as (s, pc).
    exact (proj1 (queues_partition_bounds s pc HI)).
Qed.

(** The example run: two completions, a successful cycle, a third
    completion, a failing classification. *)
Example run_moves_example :
  completed (snd (run_moves moves_example (initial boot_example, no_history)))
    = [Txn1; Txn2; Txn3] /\
  classified_on (snd (run_moves moves_example (initial boot_example, no_history)))
    = [Txn1; Txn2] /\
  removed (snd (run_moves moves_example (initial boot_example, no_history))) = [Txn1] /\
  treatment_queue (fst (fst (run_moves moves_example (initial boot_example, no_history))))
    = [Txn2; Txn3] /\
  snd (fst (run_moves moves_example (initial boot_example, no_history))) = Exited 1.
Proof. vm_compute. repeat split; reflexivity. Qed.

(** * The robot's control loop *)


Lemma motor_commands_app : forall m l l',
  motor_commands m (l ++ l') = motor_commands m l ++ motor_commands m l'.
Proof. intros. apply flat_map_app. Qed.



Lemma calls_main_loop_body : forall inp r,
  exists cs,
    calls (main_loop_body inp r) = calls r ++ cs /\
    motor_commands LEFT_MOTOR cs = motor_commands RIGHT_MOTOR cs /\
    ((duties LEFT_MOTOR cs = [] /\ indicator_writes cs = []) \/
     (duties LEFT_MOTOR cs = [0] /\ indicator_writes cs = [false]) \/
     (duties LEFT_MOTOR cs = [MOTOR_GO_SPEED] /\ indicator_writes cs = [true])).
Proof.
  intros inp r. unfold main_loop_body.
  destruct (transmission_valid inp =? 1);
    [destruct (motion_control inp =? 1)|];
    (destruct (bumpStateSet inp); [destruct (checkBumpState inp =? 0)|]);
    cbn [call set_currentLED calls currentLED];
    rewrite <- ?app_assoc; cbn [app];
    first [ exists (@nil Call); split; [symmetry; apply app_nil_r|]
          | eexists; split; [reflexivity|] ];
    (split; [reflexivity|]); cbn; auto.
Qed.

Lemma calls_T32_INT1_IRQHandler : forall leds r,
  exists cs,
    calls (T32_INT1_IRQHandler leds r) = calls r ++ cs /\
    motor_commands LEFT_MOTOR cs = [] /\
    motor_commands RIGHT_MOTOR cs = [] /\
    duties LEFT_MOTOR cs = [] /\
    indicator_writes cs = [].
Proof.
  intros leds r. unfold T32_INT1_IRQHandler.
  destruct (negb (leds =? 0));
    cbn [call calls currentLED]; rewrite <- ?app_assoc; cbn [app];
    eexists; (split; [reflexivity|]); cbn; auto.
Qed.

(** X13: the robot never steers.  Along every run of the loop, with
    heartbeat interrupts in between, the left and the right motor are told
    exactly the same things in the same order: the same duty cycles, and
    started and paused together. *)
Theorem motors_receive_identical_commands : forall events : list Event,
  motor_commands LEFT_MOTOR (calls (robot_run events robot_start))
    = motor_commands RIGHT_MOTOR (calls (robot_run events robot_start)).
Proof.
  intros events. unfold robot_run.
  assert (H0 : motor_commands LEFT_MOTOR (calls robot_start)
               = motor_commands RIGHT_MOTOR (calls robot_start)) by reflexivity.
  revert H0. generalize robot_start as r.
  induction events as [|e events IH]; intros r Hr; [exact Hr|].
  cbn [fold_left]. apply IH.
  destruct e as [inp|leds]; cbn [robot_step].
  - destruct (calls_main_loop_body inp r) as (cs & -> & Hm & _).
    rewrite !motor_commands_app, Hr, Hm. reflexivity.
  - destruct (calls_T32_INT1_IRQHandler leds r) as (cs & -> & Hl & Hrr & _).
    rewrite !motor_commands_app, Hr, Hl, Hrr. reflexivity.
Qed.


(** X15: the heartbeat shows the last decision.  Along every run
    [currentLED] is the colour of the last pass of the loop: red when it
    read both lines as 1, green when it read the valid line as 1 and the
    control line otherwise, blue when it did not read the valid line as 1,
    and red before the first pass.  A heartbeat then clears the timer flag
    and either puts the three LED pins low, when one of them reads high,
    or raises the one pin of that colour. *)
Theorem heartbeat_shows_last_decision : forall (events : list Event) (leds : Z),
  currentLED (robot_run events robot_start) = last_colour events RED_LED /\
  calls (robot_run (events ++ [Heartbeat leds]) robot_start)
    = calls (robot_run events robot_start)
      ++ [Timer32_clearInterruptFlag;
          if negb (leds =? 0)
          then GPIO_setOutputLowOnPin GPIO_PORT_P2 [RED_LED; GREEN_LED; BLUE_LED]
          else GPIO_setOutputHighOnPin GPIO_PORT_P2 [last_colour events RED_LED]].
Proof.
  intros events leds.
  assert (Hled : forall evs r,
            currentLED (robot_run evs r) = last_colour evs (currentLED r)).
  { intros evs; induction evs as [|e evs IH]; intros r; [reflexivity|].
    unfold robot_run, last_colour in *. cbn [fold_left]. rewrite IH. f_equal.
    destruct e as [inp|l]; cbn [robot_step].
    - unfold main_loop_body, decision_colour.
      destruct (transmission_valid inp =? 1);
        [destruct (motion_control inp =? 1)|];
        (destruct (bumpStateSet inp); [destruct (checkBumpState inp =? 0)|]);
        reflexivity.
    - unfold T32_INT1_IRQHandler. destruct (negb (l =? 0)); reflexivity. }
  split; [exact (Hled events robot_start)|].
  unfold robot_run at 1. rewrite fold_left_app. cbn [fold_left robot_step].
  fold (robot_run events robot_start).
  unfold T32_INT1_IRQHandler. cbn [call calls currentLED].
  destruct (negb (leds =? 0)); cbn [call calls currentLED];
    rewrite <- app_assoc; cbn [app]; [reflexivity|].
  rewrite (Hled events robot_start). reflexivity.
Qed.

(** The example run: the motors are told to go and later to stop and
    pause, both alike; the indicator ends low. *)
Example robot_run_example :
  motor_commands LEFT_MOTOR (calls (robot_run robot_events_example robot_start))
    = [Duty 20; Duty 0; Pause] /\
  motor_commands RIGHT_MOTOR (calls (robot_run robot_events_example robot_start))
    = [Duty 20; Duty 0; Pause] /\
  indicator_writes (calls (robot_run robot_events_example robot_start))
    = [false; true; false] /\
  currentLED (robot_run robot_events_example robot_start) = RED_LED.
Proof. vm_compute. repeat split; reflexivity. Qed.
